(** * Credential lifecycle of the RetailIQ client

    A shallow embedding of [src/utils/tokenManager.ts] (class
    [TokenManager]), of the axios interceptors of [src/utils/api.ts] and of
    the session operations of [src/contexts/AuthContext.tsx].

    - [localStorage] is a finite map from keys to strings.
    - Every observable side effect (a [localStorage] write, a [fetch] of
      the refresh endpoint, an assignment to [window.location.href], a
      [setTimeout]) is appended to a chronological log, so that "how many
      times" questions are questions about that log.
    - [Date.now()] is an explicit argument, in milliseconds.
    - JavaScript numbers are modelled by integers plus [NaN]: the values
      at stake are millisecond timestamps, on which double arithmetic is
      exact.
    - An [async] function is split at its [await]s: a [_start] part that
      runs synchronously up to the first suspension and one function per
      continuation.  The event loop that interleaves them is [step].
    - [localStorage] never throws, and an assignment to the location is
      an effect like the others: the page load that it leads to is an
      event of its own ([Reload]).
    - A page load parses the saved profile outside any [try]: when
      [JSON.parse] throws, the provider does not mount and the run has
      no next state. *)

From Stdlib Require Import Ascii String.
From stdpp Require Import gmap strings list fin_maps pretty.

Set Warnings "-register-all".
Open Scope Z_scope.

(** ** JavaScript values *)

Inductive JsNum : Type :=
| NaN
| Num (z : Z).

Inductive JsVal : Type :=
| JUndefined
| JNull
| JBool (b : bool)
| JNumber (n : JsNum)
| JString (s : string)
| JArray (items : list JsVal)
| JObject (fields : list (string * JsVal)).

Definition num_mul (a b : JsNum) : JsNum :=
  match a, b with
  | Num x, Num y => Num (x * y)
  | _, _ => NaN
  end.

Definition num_sub (a b : JsNum) : JsNum :=
  match a, b with
  | Num x, Num y => Num (x - y)
  | _, _ => NaN
  end.

(** [a < b]: any comparison with [NaN] is false. *)
Definition num_lt (a b : JsNum) : bool :=
  match a, b with
  | Num x, Num y => bool_decide (x < y)
  | _, _ => false
  end.

(** [a > b]. *)
Definition num_gt (a b : JsNum) : bool := num_lt b a.

Fixpoint assoc (k : string) (fs : list (string * JsVal)) : JsVal :=
  match fs with
  | [] => JUndefined
  | (k', v) :: fs' => if bool_decide (k' = k) then v else assoc k fs'
  end.

(** [v.k] for a key [k] that no prototype defines (such as [exp]):
    [None] is the [TypeError] raised on [null] and [undefined]. *)
Definition get_prop (v : JsVal) (k : string) : option JsVal :=
  match v with
  | JUndefined | JNull => None
  | JObject fs => Some (assoc k fs)
  | _ => Some JUndefined
  end.

(** A string or [null], as a condition: [null] and the empty string are
    falsy. *)
Definition truthy (o : option string) : option string :=
  match o with
  | Some s => if bool_decide (s = EmptyString) then None else Some s
  | None => None
  end.

(** [a || b] on strings-or-null. *)
Definition or_else (a b : option string) : option string :=
  match truthy a with
  | Some s => Some s
  | None => b
  end.

(** [s.split(c)] for a one-character separator. *)
Fixpoint split_on (c : ascii) (s : string) : list string :=
  match s with
  | EmptyString => [EmptyString]
  | String a s' =>
      if bool_decide (a = c) then EmptyString :: split_on c s'
      else match split_on c s' with
           | [] => [String a EmptyString]
           | p :: ps => String a p :: ps
           end
  end.

(** The built-ins of the browser that the token manager calls.  [None]
    stands for a thrown exception. *)
Class Platform : Type := {
  atob : string → option string;
  JSON_parse : string → option JsVal;
  StringToNumber : string → JsNum;
  ObjectToNumber : JsVal → JsNum;
}.

(** ** The world: [localStorage] and the effect log *)

Inductive Effect : Type :=
| SetItem (k v : string)
| RemoveItem (k : string)
| Fetch (refresh_token : string)      (* POST /api/auth/refresh *)
| SetHref (url : string)              (* window.location.href = url *)
| SetTimeout (delay : Z).             (* setTimeout(refreshAccessToken, delay) *)

Record World : Type := mkWorld {
  storage : gmap string string;
  effects : list Effect;
}.

Definition emit (e : Effect) (w : World) : World :=
  mkWorld (storage w) (effects w ++ [e]).

Definition getItem (k : string) (w : World) : option string :=
  storage w !! k.

Definition setItem (k v : string) (w : World) : World :=
  mkWorld (<[k := v]> (storage w)) (effects w ++ [SetItem k v]).

Definition removeItem (k : string) (w : World) : World :=
  mkWorld (delete k (storage w)) (effects w ++ [RemoveItem k]).

Definition set_href (url : string) (w : World) : World := emit (SetHref url) w.

Definition is_fetch (e : Effect) : bool :=
  match e with Fetch _ => true | _ => false end.

Definition is_timer (e : Effect) : bool :=
  match e with SetTimeout _ => true | _ => false end.

Definition is_href (e : Effect) : bool :=
  match e with SetHref _ => true | _ => false end.

Definition is_remove (k : string) (e : Effect) : bool :=
  match e with RemoveItem k' => bool_decide (k' = k) | _ => false end.

Definition is_write (e : Effect) : bool :=
  match e with SetItem _ _ => true | _ => false end.

Definition count (p : Effect → bool) (l : list Effect) : nat :=
  length (filter (λ e, p e = true) l).

(** The four keys of the persisted client state. *)
Definition credential_keys : list string :=
  ["auth_token"; "refresh_token"; "token_expires_at"; "user_data"].

Definition store_cleared (w : World) : Prop :=
  ∀ k, k ∈ credential_keys → storage w !! k = None.

(** ** TokenManager *)

Module TokenManager.

Record TokenData : Type := mkTokenData {
  access_token : string;
  refresh_token : string;
  expires_at : Z;
}.

Definition fiveMinutes : Z := 5 * 60 * 1000.

Definition getAccessToken (w : World) : option string := getItem "auth_token" w.

Definition getRefreshToken (w : World) : option string := getItem "refresh_token" w.

Definition setTokens (now : Z) (tokenData : TokenData) (w : World) : World :=
  let w := setItem "auth_token" (access_token tokenData) w in
  let w := setItem "refresh_token" (refresh_token tokenData) w in
  let expiresAt := now + expires_at tokenData * 1000 in
  setItem "token_expires_at" (pretty expiresAt) w.

Definition clearTokens (w : World) : World :=
  let w := removeItem "auth_token" w in
  let w := removeItem "refresh_token" w in
  let w := removeItem "token_expires_at" w in
  removeItem "user_data" w.

Section WithPlatform.
Context `{Platform}.

(** [x * 1000] starts with [ToNumber(x)]. *)
Definition ToNumber (v : JsVal) : JsNum :=
  match v with
  | JUndefined => NaN
  | JNull => Num 0
  | JBool b => Num (if b then 1 else 0)
  | JNumber n => n
  | JString s => StringToNumber s
  | JArray _ | JObject _ => ObjectToNumber v
  end.

(** [JSON.parse(atob(parts[1]))]; [None] when [atob] or [JSON.parse]
    throws. *)
Definition parse_payload (parts : list string) : option JsVal :=
  match parts !! 1%nat with
  | None => None
  | Some part =>
      match atob part with
      | None => None
      | Some json => JSON_parse json
      end
  end.

(** [isTokenExpired(token?)]: every exception of the [try] block ends in
    the [catch], which returns [false]. *)
Definition isTokenExpired (now : Z) (w : World) (token : option string) : bool :=
  match truthy (or_else token (getAccessToken w)) with
  | None => true
  | Some tokenToCheck =>
      if bool_decide (tokenToCheck = "local-test-token") then false
      else
        let parts := split_on "." tokenToCheck in
        if bool_decide (length parts ≠ 3%nat) then false
        else
          match parse_payload parts with
          | None => false
          | Some payload =>
              match get_prop payload "exp" with
              | None => false
              | Some exp =>
                  let expiresAt := num_mul (ToNumber exp) (Num 1000) in
                  num_lt (num_sub expiresAt (Num now)) (Num fiveMinutes)
              end
          end
  end.

(** [scheduleTokenRefresh()]: at most one timer is armed; no handle is
    kept and no timer is ever cancelled. *)
Definition scheduleTokenRefresh (now : Z) (w : World) : World :=
  match truthy (getAccessToken w) with
  | None => w
  | Some token =>
      if isTokenExpired now w (Some token) then w
      else if bool_decide (token = "local-test-token") then w
      else
        let parts := split_on "." token in
        if bool_decide (length parts ≠ 3%nat) then w
        else
          match parse_payload parts with
          | None => w
          | Some payload =>
              match get_prop payload "exp" with
              | None => w
              | Some exp =>
                  let expiresAt := num_mul (ToNumber exp) (Num 1000) in
                  let refreshTime :=
                    num_sub (num_sub expiresAt (Num now)) (Num (10 * 60 * 1000)) in
                  if num_gt refreshTime (Num 0) then
                    match refreshTime with
                    | Num d => emit (SetTimeout d) w
                    | NaN => w
                    end
                  else w
              end
          end
  end.

(** *** Refreshing

    The body that [response.json()] resolves to, as far as
    [performTokenRefresh] reads it.  An absent field is [undefined]. *)
Record RefreshBody : Type := mkRefreshBody {
  body_access_token : option string;
  body_refresh_token : option string;
  body_expires_in : option Z;
}.

(** What the [fetch] of the refresh endpoint comes back with. *)
Inductive FetchResult : Type :=
| NetworkFailure                      (* fetch rejects *)
| HttpError (status : Z)              (* response.ok is false *)
| HttpOk (data : option RefreshBody). (* response.ok; None: response.json()
                                         rejects or resolves to null *)

(** [localStorage.setItem(k, v)] stores [String(v)]. *)
Definition to_stored (v : option string) : string :=
  match v with
  | Some s => s
  | None => "undefined"
  end.

(** [performTokenRefresh(refreshToken)] up to [await fetch(...)]. *)
Definition performTokenRefresh_start (refreshToken : string) (w : World) : World :=
  emit (Fetch refreshToken) w.

(** [performTokenRefresh(refreshToken)] from the completion of the
    [fetch] to its [return]. *)
Definition performTokenRefresh_settle
    (now : Z) (r : FetchResult) (refreshToken : string) (w : World) : bool * World :=
  match r with
  | HttpOk (Some data) =>
      (true,
       setTokens now
         {| access_token := to_stored (body_access_token data);
            refresh_token :=
              match truthy (body_refresh_token data) with
              | Some t => t
              | None => refreshToken
              end;
            expires_at :=
              match body_expires_in data with
              | Some n => if bool_decide (n = 0) then 3600 else n
              | None => 3600
              end |} w)
  | HttpOk None => (false, clearTokens w)
  | HttpError _ => (false, clearTokens w)
  | NetworkFailure => (false, clearTokens w)
  end.

(** The promise that [performTokenRefresh] returned. *)
Inductive PromiseState : Type :=
| Pending (refreshToken : string)
| Settled (result : bool).

(** Where a call of [getValidAccessToken()] stands. *)
Inductive Caller : Type :=
| InRefresh (p : nat)   (* inside refreshAccessToken, at await this.refreshPromise *)
| InGet (p : nat)       (* at await this.refreshAccessToken(), which returned promise p *)
| InGetVal (b : bool)   (* at await this.refreshAccessToken(), which returned b *)
| Returned (r : option string).

Record Manager : Type := mkManager {
  world : World;
  refreshPromise : option nat;
  promises : list PromiseState;
  callers : list Caller;
}.

(** [TokenManager.getInstance()] on first use. *)
Definition new_manager (w : World) : Manager := mkManager w None [] [].

Definition add_caller (c : Caller) (m : Manager) : Manager :=
  mkManager (world m) (refreshPromise m) (promises m) (callers m ++ [c]).

Definition set_caller (i : nat) (c : Caller) (m : Manager) : Manager :=
  mkManager (world m) (refreshPromise m) (promises m) (<[i := c]> (callers m)).

(** [refreshAccessToken()] up to its first suspension (or its return). *)
Definition refreshAccessToken_start (m : Manager) : Caller * Manager :=
  match refreshPromise m with
  | Some p => (InGet p, m)
  | None =>
      match truthy (getRefreshToken (world m)) with
      | None =>
          (InGetVal false,
           mkManager (clearTokens (world m)) (refreshPromise m) (promises m) (callers m))
      | Some refreshToken =>
          let p := length (promises m) in
          (InRefresh p,
           mkManager (performTokenRefresh_start refreshToken (world m))
                     (Some p) (promises m ++ [Pending refreshToken]) (callers m))
      end
  end.

(** [refreshAccessToken()] after [await this.refreshPromise]. *)
Definition refreshAccessToken_resume (i : nat) (result : bool) (m : Manager) : Manager :=
  mkManager (world m) None (promises m) (<[i := InGetVal result]> (callers m)).

(** [getValidAccessToken()] up to [await this.refreshAccessToken()] (or
    its return). *)
Definition getValidAccessToken_start (now : Z) (m : Manager) : Manager :=
  match truthy (getAccessToken (world m)) with
  | None => add_caller (Returned None) m
  | Some accessToken =>
      if bool_decide (accessToken = "local-test-token")
      then add_caller (Returned (Some accessToken)) m
      else if negb (isTokenExpired now (world m) (Some accessToken))
      then add_caller (Returned (Some accessToken)) m
      else let '(c, m') := refreshAccessToken_start m in add_caller c m'
  end.

(** [getValidAccessToken()] after [await this.refreshAccessToken()]. *)
Definition getValidAccessToken_resume (i : nat) (refreshed : bool) (m : Manager) : Manager :=
  if refreshed
  then set_caller i (Returned (getAccessToken (world m))) m
  else set_caller i (Returned None)
         (mkManager (set_href "/" (world m)) (refreshPromise m) (promises m) (callers m)).

(** *** The event loop *)

Inductive Event : Type :=
| Call (now : Z)                                (* a new getValidAccessToken() *)
| Respond (p : nat) (now : Z) (r : FetchResult) (* the fetch of promise p completes *)
| ResumeRefresh (i : nat)
| ResumeGet (i : nat).

Definition step (e : Event) (m : Manager) : option Manager :=
  match e with
  | Call now => Some (getValidAccessToken_start now m)
  | Respond p now r =>
      match promises m !! p with
      | Some (Pending refreshToken) =>
          let '(b, w) := performTokenRefresh_settle now r refreshToken (world m) in
          Some (mkManager w (refreshPromise m) (<[p := Settled b]> (promises m)) (callers m))
      | _ => None
      end
  | ResumeRefresh i =>
      match callers m !! i with
      | Some (InRefresh p) =>
          match promises m !! p with
          | Some (Settled b) => Some (refreshAccessToken_resume i b m)
          | _ => None
          end
      | _ => None
      end
  | ResumeGet i =>
      match callers m !! i with
      | Some (InGet p) =>
          match promises m !! p with
          | Some (Settled b) => Some (getValidAccessToken_resume i b m)
          | _ => None
          end
      | Some (InGetVal b) => Some (getValidAccessToken_resume i b m)
      | _ => None
      end
  end.

Fixpoint run (es : list Event) (m : Manager) : option Manager :=
  match es with
  | [] => Some m
  | e :: es' =>
      match step e m with
      | Some m' => run es' m'
      | None => None
      end
  end.

Definition is_resume (e : Event) : bool :=
  match e with
  | ResumeRefresh _ | ResumeGet _ => true
  | _ => false
  end.

Definition is_returned (c : Caller) : bool :=
  match c with Returned _ => true | _ => false end.

End WithPlatform.

End TokenManager.

(** ** A reference platform

    An executable instance of [Platform], used to run the model on
    concrete tokens.  [atob] is the forgiving base64 decoder of the HTML
    standard.  [JSON_parse] reads JSON texts whose numbers are integer
    literals and whose strings have no escape sequence, and rejects the
    others; the number conversions are exact on digit strings and on
    plain objects.  The theorems below hold for every platform. *)

Module Browser.

Definition is_space (c : ascii) : bool :=
  let n := N_of_ascii c in
  bool_decide (n = 9 ∨ n = 10 ∨ n = 12 ∨ n = 13 ∨ n = 32)%N.

Definition b64_digit (c : ascii) : option N :=
  let n := N_of_ascii c in
  if bool_decide (65 ≤ n ≤ 90)%N then Some (n - 65)%N
  else if bool_decide (97 ≤ n ≤ 122)%N then Some (n - 71)%N
  else if bool_decide (48 ≤ n ≤ 57)%N then Some (n + 4)%N
  else if bool_decide (n = 43)%N then Some 62%N
  else if bool_decide (n = 47)%N then Some 63%N
  else None.

Fixpoint b64_digits (l : list ascii) : option (list N) :=
  match l with
  | [] => Some []
  | c :: l' =>
      match b64_digit c, b64_digits l' with
      | Some d, Some ds => Some (d :: ds)
      | _, _ => None
      end
  end.

Fixpoint b64_bytes (ds : list N) : option (list ascii) :=
  match ds with
  | [] => Some []
  | [_] => None
  | [a; b] => Some [ascii_of_N (a * 4 + b / 16)]
  | [a; b; c] =>
      Some [ascii_of_N (a * 4 + b / 16); ascii_of_N ((b mod 16) * 16 + c / 4)]
  | a :: b :: c :: d :: rest =>
      match b64_bytes rest with
      | Some bs =>
          Some (ascii_of_N (a * 4 + b / 16)
                :: ascii_of_N ((b mod 16) * 16 + c / 4)
                :: ascii_of_N ((c mod 4) * 64 + d) :: bs)
      | None => None
      end
  end%N.

Definition strip_padding (l : list ascii) : list ascii :=
  if bool_decide (length l `mod` 4 = 0)%nat then
    match reverse l with
    | "="%char :: "="%char :: r => reverse r
    | "="%char :: r => reverse r
    | _ => l
    end
  else l.

Definition atob_impl (s : string) : option string :=
  let l := filter (λ c, is_space c = false) (list_ascii_of_string s) in
  match b64_digits (strip_padding l) with
  | Some ds => string_of_list_ascii <$> b64_bytes ds
  | None => None
  end.

Definition is_ws (c : ascii) : bool :=
  let n := N_of_ascii c in
  bool_decide (n = 9 ∨ n = 10 ∨ n = 13 ∨ n = 32)%N.

Fixpoint skip_ws (l : list ascii) : list ascii :=
  match l with
  | c :: l' => if is_ws c then skip_ws l' else l
  | [] => []
  end.

Definition digit_of (c : ascii) : option Z :=
  let n := N_of_ascii c in
  if bool_decide (48 ≤ n ≤ 57)%N then Some (Z.of_N n - 48) else None.

(** The digits at the head of [l], their value (after [acc]) and count. *)
Fixpoint read_digits (l : list ascii) (acc : Z) (k : nat) : Z * nat * list ascii :=
  match l with
  | c :: l' =>
      match digit_of c with
      | Some d => read_digits l' (acc * 10 + d) (S k)
      | None => (acc, k, l)
      end
  | [] => (acc, k, [])
  end.

(** An integer literal: no leading zero, no fraction, no exponent. *)
Definition read_int (l : list ascii) : option (Z * list ascii) :=
  let '(neg, l1) :=
    match l with
    | "-"%char :: r => (true, r)
    | _ => (false, l)
    end in
  let '(v, k, rest) := read_digits l1 0 0 in
  let leading_zero :=
    match l1 with
    | "0"%char :: _ => bool_decide (1 < k)%nat
    | _ => false
    end in
  let continued :=
    match rest with
    | c :: _ => bool_decide (c = "."%char ∨ c = "e"%char ∨ c = "E"%char)
    | [] => false
    end in
  if bool_decide (k = 0%nat) || leading_zero || continued then None
  else Some (if neg then - v else v, rest).

(** The characters up to the closing quote. *)
Fixpoint read_string (l : list ascii) : option (string * list ascii) :=
  match l with
  | [] => None
  | c :: l' =>
      if bool_decide (c = "034"%char) then Some (EmptyString, l')
      else if bool_decide (c = "\"%char) || bool_decide (N_of_ascii c < 32)%N then None
      else match read_string l' with
           | Some (s, r) => Some (String c s, r)
           | None => None
           end
  end.

Fixpoint read_value (fuel : nat) (l : list ascii) : option (JsVal * list ascii) :=
  match fuel with
  | O => None
  | S fuel' =>
      match skip_ws l with
      | "n"%char :: "u"%char :: "l"%char :: "l"%char :: r => Some (JNull, r)
      | "t"%char :: "r"%char :: "u"%char :: "e"%char :: r => Some (JBool true, r)
      | "f"%char :: "a"%char :: "l"%char :: "s"%char :: "e"%char :: r =>
          Some (JBool false, r)
      | "034"%char :: r =>
          match read_string r with
          | Some (s, r') => Some (JString s, r')
          | None => None
          end
      | "["%char :: r =>
          match skip_ws r with
          | "]"%char :: r' => Some (JArray [], r')
          | _ => read_items fuel' r []
          end
      | "{"%char :: r =>
          match skip_ws r with
          | "}"%char :: r' => Some (JObject [], r')
          | _ => read_members fuel' r []
          end
      | l' =>
          match read_int l' with
          | Some (z, r) => Some (JNumber (Num z), r)
          | None => None
          end
      end
  end
with read_items (fuel : nat) (l : list ascii) (acc : list JsVal)
    : option (JsVal * list ascii) :=
  match fuel with
  | O => None
  | S fuel' =>
      match read_value fuel' l with
      | Some (v, r) =>
          match skip_ws r with
          | ","%char :: r' => read_items fuel' r' (acc ++ [v])
          | "]"%char :: r' => Some (JArray (acc ++ [v]), r')
          | _ => None
          end
      | None => None
      end
  end
with read_members (fuel : nat) (l : list ascii) (acc : list (string * JsVal))
    : option (JsVal * list ascii) :=
  match fuel with
  | O => None
  | S fuel' =>
      match skip_ws l with
      | "034"%char :: r =>
          match read_string r with
          | Some (k, r1) =>
              match skip_ws r1 with
              | ":"%char :: r2 =>
                  match read_value fuel' r2 with
                  | Some (v, r3) =>
                      (* a repeated key keeps its last value *)
                      match skip_ws r3 with
                      | ","%char :: r4 => read_members fuel' r4 ((k, v) :: acc)
                      | "}"%char :: r4 => Some (JObject ((k, v) :: acc), r4)
                      | _ => None
                      end
                  | None => None
                  end
              | _ => None
              end
          | None => None
          end
      | _ => None
      end
  end.

Definition JSON_parse_impl (s : string) : option JsVal :=
  let l := list_ascii_of_string s in
  match read_value (S (length l)) l with
  | Some (v, r) =>
      match skip_ws r with
      | [] => Some v
      | _ => None
      end
  | None => None
  end.

Definition StringToNumber_impl (s : string) : JsNum :=
  let l := list_ascii_of_string s in
  match l with
  | [] => Num 0
  | _ =>
      let '(v, k, rest) := read_digits l 0 0 in
      match rest with
      | [] => Num v
      | _ => NaN
      end
  end.

Definition ObjectToNumber_impl (v : JsVal) : JsNum :=
  match v with
  | JArray [] => Num 0
  | _ => NaN
  end.

Definition platform : Platform :=
  {| atob := atob_impl;
     JSON_parse := JSON_parse_impl;
     StringToNumber := StringToNumber_impl;
     ObjectToNumber := ObjectToNumber_impl |}.

End Browser.

(** ** The response interceptor of [api.ts] *)

Module Api.

(** The error object that axios rejects with, as far as the handlers
    read it: [code], [message], [response?.data?.error] and
    [response?.status]. *)
Record ErrorResponse : Type := mkErrorResponse {
  data_error : option string;
  status : Z;
}.

Record ErrorObj : Type := mkErrorObj {
  code : option string;
  message : option string;
  response : option ErrorResponse;
}.

(** [api.interceptors.response]'s error handler; the rejection is then
    passed on to the caller. *)
Definition response_error (error : ErrorObj) (w : World) : World :=
  if bool_decide (status <$> response error = Some 401) then
    let w := removeItem "auth_token" w in
    let w := removeItem "user_data" w in
    set_href "/login" w
  else w.

(** The handler run once per rejected response, in the order in which
    the responses arrive. *)
Fixpoint response_errors (errors : list ErrorObj) (w : World) : World :=
  match errors with
  | [] => w
  | error :: errors' => response_errors errors' (response_error error w)
  end.

Definition is_401 (error : ErrorObj) : Prop := status <$> response error = Some 401.

End Api.

(** ** AuthContext *)

Module AuthContext.
Import Api.

Record User : Type := mkUser {
  id : string;
  name : string;
  email : string;
  storeName : string;
  storeId : string;
}.

(** [response.data.user] of the login and signup endpoints. *)
Record UserData : Type := mkUserData {
  ud_id : Z;
  ud_name : string;
  ud_email : string;
  ud_store_name : string;
  ud_store_id : option string;
}.

(** How [await authAPI.login(...)] (or [signup]) ends. *)
Inductive Outcome : Type :=
| Ok (token : option string) (userData : UserData)
| Malformed (msg : string)    (* a 2xx body without user or user.id:
                                 TypeError(msg) inside the try block *)
| Rejected (e : ErrorObj).    (* rejected, after the response interceptor *)

(** The React state of [AuthProvider]. *)
Record AuthState : Type := mkAuthState {
  user : option User;
  loading : bool;
  error : string;
  isInitialized : bool;
}.

Record App : Type := mkApp {
  session : AuthState;
  manager : TokenManager.Manager;
}.

Definition env (a : App) : World := TokenManager.world (manager a).

Definition with_env (w : World) (a : App) : App :=
  mkApp (session a)
    (TokenManager.mkManager w (TokenManager.refreshPromise (manager a))
       (TokenManager.promises (manager a)) (TokenManager.callers (manager a))).

Definition isAuthenticated (s : AuthState) : bool :=
  bool_decide (is_Some (user s)) && isInitialized s.

(** The three cases that [ProtectedRoute] tells apart. *)
Inductive SessionState : Type :=
| Unauthenticated
| Authenticating
| Authenticated.

Definition session_state (s : AuthState) : SessionState :=
  if loading s then Authenticating
  else if negb (isAuthenticated s) then Unauthenticated
  else Authenticated.

Definition login_error_message (e : ErrorObj) : string :=
  if bool_decide (code e = Some "ERR_NETWORK") || bool_decide (message e = Some "Network Error")
  then "Network error: Cannot connect to server. Please check if your backend is running."
  else match truthy (response e ≫= data_error) with
       | Some msg => msg
       | None =>
           match truthy (message e) with
           | Some msg => msg
           | None => "Login failed"
           end
       end.

Definition signup_error_message (e : ErrorObj) : string :=
  if bool_decide (code e = Some "ECONNABORTED")
  then "Request timed out. Your backend might be starting up. Please try again in 30 seconds."
  else if bool_decide (code e = Some "ERR_NETWORK") || bool_decide (message e = Some "Network Error")
  then "Network error: Cannot reach server. Please check if your backend is running."
  else if bool_decide (status <$> response e = Some 503)
  then "Server temporarily unavailable. Backend might be restarting."
  else match truthy (response e ≫= data_error) with
       | Some msg => msg
       | None =>
           match truthy (message e) with
           | Some msg => msg
           | None => "Signup failed"
           end
       end.

(** The error object caught for each failing outcome. *)
Definition caught (o : Outcome) : option ErrorObj :=
  match o with
  | Ok _ _ => None
  | Malformed msg => Some (mkErrorObj None (Some msg) None)
  | Rejected e => Some e
  end.

Section WithJSON.
(** [JSON.stringify] on a user object, and [JSON.parse] of a saved
    one: [None] when [JSON.parse] throws (the text is not JSON),
    [Some None] when the parsed value is falsy. *)
Variable stringify_user : User → string.
Variable parse_user : string → option (option User).

(** The initial state of [AuthProvider]: the [useState] initialisers.
    The initialiser of [user] calls [JSON.parse] outside any [try]:
    when that throws, the provider does not mount ([None]) and nothing
    of the application runs, [initializeAuth] included. *)
Definition mount (w : World) : option AuthState :=
  match truthy (getItem "user_data" w) with
  | Some savedUser =>
      match parse_user savedUser with
      | Some u => Some (mkAuthState u true EmptyString false)
      | None => None
      end
  | None => Some (mkAuthState None true EmptyString false)
  end.

(** [initializeAuth], run by the timer 100 ms after the mount. *)
Definition initializeAuth (a : App) : App :=
  let token := getItem "auth_token" (env a) in
  let savedUser := getItem "user_data" (env a) in
  let s := session a in
  let u :=
    match truthy token, truthy savedUser with
    | Some _, Some _ => user s
    | _, _ => None
    end in
  mkApp (mkAuthState u false (error s) true) (manager a).

(** [login] and [signup] up to [await authAPI...]. *)
Definition attempt_begin (a : App) : App :=
  mkApp (mkAuthState (user (session a)) true EmptyString (isInitialized (session a))) (manager a).

Definition to_user (userData : UserData) : User :=
  mkUser (pretty (ud_id userData)) (ud_name userData) (ud_email userData)
    (ud_store_name userData)
    (match truthy (ud_store_id userData) with
     | Some sid => sid
     | None => "1"
     end).

(** [login] and [signup] after the [await], [finally] included; the
    second component is the promised boolean. *)
Definition attempt_settle (msg_of : ErrorObj → string) (o : Outcome) (a : App) : bool * App :=
  let s := session a in
  match o with
  | Ok token userData =>
      let u := to_user userData in
      let w := setItem "user_data" (stringify_user u) (env a) in
      let w := setItem "auth_token" (TokenManager.to_stored token) w in
      (true, with_env w (mkApp (mkAuthState (Some u) false (error s) (isInitialized s)) (manager a)))
  | _ =>
      match caught o with
      | Some e =>
          (false, mkApp (mkAuthState (user s) false (msg_of e) (isInitialized s)) (manager a))
      | None => (false, a)
      end
  end.

Definition login_settle : Outcome → App → bool * App := attempt_settle login_error_message.
Definition signup_settle : Outcome → App → bool * App := attempt_settle signup_error_message.

Definition logout (a : App) : App :=
  let s := session a in
  let w := removeItem "user_data" (env a) in
  let w := removeItem "auth_token" w in
  with_env w (mkApp (mkAuthState None (loading s) EmptyString (isInitialized s)) (manager a)).

(** *** The operations of the running application *)

Inductive AppEvent : Type :=
| Reload                                   (* a page load: the provider mounts *)
| InitializeAuth
| LoginBegin
| LoginSettle (o : Outcome)
| SignupBegin
| SignupSettle (o : Outcome)
| Logout
| ResponseError (e : ErrorObj)             (* the response interceptor *)
| Token (e : TokenManager.Event).          (* the request interceptor's token manager *)

Context `{Platform}.

(** [None]: the event cannot take place in this state, or, for a page
    load, the provider throws while it mounts. *)
Definition app_step (ev : AppEvent) (a : App) : option App :=
  match ev with
  | Reload =>
      match mount (env a) with
      | Some s => Some (mkApp s (TokenManager.new_manager (env a)))
      | None => None
      end
  | InitializeAuth => Some (initializeAuth a)
  | LoginBegin => Some (attempt_begin a)
  | LoginSettle o => Some (snd (login_settle o a))
  | SignupBegin => Some (attempt_begin a)
  | SignupSettle o => Some (snd (signup_settle o a))
  | Logout => Some (logout a)
  | ResponseError e => Some (with_env (response_error e (env a)) a)
  | Token e => mkApp (session a) <$> TokenManager.step e (manager a)
  end.

Fixpoint app_run (evs : list AppEvent) (a : App) : option App :=
  match evs with
  | [] => Some a
  | ev :: evs' =>
      match app_step ev a with
      | Some a' => app_run evs' a'
      | None => None
      end
  end.

(** The application as first loaded in a browser whose [localStorage]
    is [st]. *)
Definition start (st : gmap string string) : option App :=
  let w := mkWorld st [] in
  match mount w with
  | Some s => Some (mkApp s (TokenManager.new_manager w))
  | None => None
  end.

(** What the request and its answer pass through between the two halves
    of [login] or [signup]: the request interceptor calls
    [getValidAccessToken()] at time [now] and waits for the token, [tes]
    being the steps that the token manager takes in the meantime; a
    rejected response then passes through the response interceptor. *)
Definition exchange (now : Z) (tes : list TokenManager.Event) (o : Outcome)
    : list AppEvent :=
  (Token <$> TokenManager.Call now :: tes)
  ++ match o with Rejected e => [ResponseError e] | _ => [] end.

(** The world once the answer has come back through the response
    interceptor. *)
Definition received (o : Outcome) (w : World) : World :=
  match o with
  | Rejected e => response_error e w
  | _ => w
  end.

(** A whole login attempt, and a whole signup attempt. *)
Definition login_attempt (now : Z) (tes : list TokenManager.Event) (o : Outcome)
    : list AppEvent :=
  LoginBegin :: exchange now tes o ++ [LoginSettle o].

Definition signup_attempt (now : Z) (tes : list TokenManager.Event) (o : Outcome)
    : list AppEvent :=
  SignupBegin :: exchange now tes o ++ [SignupSettle o].

(** The steps by which an interceptor or the token manager removes the
    stored credentials without telling the session: a response rejected
    with status 401 (the two [removeItem] of the response interceptor);
    an answer of the refresh endpoint that is not a success (the
    [clearTokens()] of the [else] and [catch] branches of
    [performTokenRefresh]); a call of [getValidAccessToken()] that finds
    the token expired, no refresh under way and no refresh token (the
    [clearTokens()] of [refreshAccessToken]). *)
Definition teardown (ev : AppEvent) (a : App) : bool :=
  match ev with
  | ResponseError e => bool_decide (status <$> response e = Some 401)
  | Token (TokenManager.Respond _ _ r) =>
      match r with
      | TokenManager.HttpOk (Some _) => false
      | _ => true
      end
  | Token (TokenManager.Call now) =>
      match truthy (TokenManager.getAccessToken (env a)) with
      | Some accessToken =>
          negb (bool_decide (accessToken = "local-test-token"))
          && TokenManager.isTokenExpired now (env a) (Some accessToken)
          && bool_decide (TokenManager.refreshPromise (manager a) = None)
          && bool_decide (truthy (TokenManager.getRefreshToken (env a)) = None)
      | None => false
      end
  | _ => false
  end.

(** The events after which the store holds what the session says,
    whatever came before: a page load, the start-up check, a successful
    login or signup, a logout. *)
Definition establishes (ev : AppEvent) : bool :=
  match ev with
  | Reload | InitializeAuth | Logout
  | LoginSettle (Ok _ _) | SignupSettle (Ok _ _) => true
  | _ => false
  end.

(** The events of the interceptors and of the token manager. *)
Definition background (ev : AppEvent) : Prop :=
  match ev with
  | ResponseError _ | Token _ => True
  | _ => False
  end.

(** Along a run: whether the last step that was either a teardown or an
    establishing event was an establishing one, that is, whether no
    teardown has taken place since the store was last put in step with
    the session; [ok] says so for the state in which the run begins. *)
Fixpoint in_step (ok : bool) (evs : list AppEvent) (a : App) : bool :=
  match evs with
  | [] => ok
  | ev :: evs' =>
      match app_step ev a with
      | Some a' =>
          in_step (if teardown ev a then false
                   else if establishes ev then true
                   else ok) evs' a'
      | None => ok
      end
  end.

End WithJSON.

(** The invariant as the specification words it. *)
Definition credential_invariant (a : App) : Prop :=
  (session_state (session a) = Authenticated → is_Some (getItem "auth_token" (env a))) ∧
  (session_state (session a) = Unauthenticated → store_cleared (env a)).

(** What [AuthContext] maintains: an authenticated session has its token
    and its profile in the store. *)
Definition token_invariant (a : App) : Prop :=
  isAuthenticated (session a) = true →
  is_Some (getItem "auth_token" (env a)) ∧ is_Some (getItem "user_data" (env a)).

End AuthContext.

(** ** The specification's vocabulary *)

Module Spec.
Import TokenManager.

Section WithPlatform.
Context `{Platform}.

(** The expiry claim that a token decodes to, in seconds: the [exp]
    member of the JSON payload carried, base64-encoded, by the middle one
    of the three dot-separated parts.  [NaN] when the token has no such
    claim. *)
Definition decoded_exp (token : string) : JsNum :=
  match split_on "." token with
  | [_; part; _] =>
      match (atob part ≫= JSON_parse) ≫= (λ payload, get_prop payload "exp") with
      | Some v => ToNumber v
      | None => NaN
      end
  | _ => NaN
  end.

End WithPlatform.

(** The refresh attempts that fail: every answer but a 2xx response with
    a JSON object as body. *)
Definition failed (r : FetchResult) : Prop :=
  match r with
  | HttpOk (Some _) => False
  | _ => True
  end.

(** The access token that a successful answer carries. *)
Definition renewed (r : FetchResult) : option string :=
  match r with
  | HttpOk (Some data) => Some (to_stored (body_access_token data))
  | _ => None
  end.

(** The safety margin of [isTokenExpired] and the lead time of
    [scheduleTokenRefresh], in milliseconds. *)
Definition skew : Z := 300 * 1000.
Definition leadTime : Z := 600 * 1000.

End Spec.

(** ** Invariants of the event loop *)

Module Inv.
Import TokenManager.

(** What holds from the moment the refresh of promise [p] has settled
    with [b], the store being [st] and the log [base] at that moment:
    [cs0] are the callers that had returned before, and the [n] callers
    of the refresh wait for it or have returned its outcome. *)
Record settled (st : gmap string string) (base : list Effect) (b : bool)
    (p : nat) (cs0 : list Caller) (n : nat) (m : Manager) : Prop := mkSettled {
  settled_storage : storage (world m) = st;
  settled_effects :
    ∃ hs, effects (world m) = base ++ hs ∧ Forall (λ e, is_fetch e = false) hs;
  settled_promise : promises m !! p = Some (Settled b);
  settled_callers :
    ∃ new, callers m = cs0 ++ new ∧ length new = n ∧
           Forall (λ c, c = InRefresh p ∨ c = InGet p ∨ c = InGetVal b ∨
                        c = Returned (if b then st !! "auth_token" else None)) new ∧
           ((∃ j, new !! j = Some (InRefresh p)) ∨ refreshPromise m = None);
}.

(** A caller that waits for a promise settled with [false] can only end
    by returning [null]. *)
Definition reports_failure (p : nat) (c : Caller) : Prop :=
  c = InRefresh p ∨ c = InGet p ∨ c = InGetVal false ∨ c = Returned None.

(** The number of continuations that a call still has to run before it
    returns. *)
Definition pending_steps (c : Caller) : nat :=
  match c with
  | InRefresh _ => 2
  | InGet _ | InGetVal _ => 1
  | Returned _ => 0
  end.

Definition remaining (cs : list Caller) : nat := sum_list (pending_steps <$> cs).

End Inv.

(** ** Concrete inputs *)

Module Demo.
Import TokenManager.

(** header.payload.signature, the payload being the base64 text of a JSON
    object whose only member is exp, 1000. *)
Definition jwt_1000 : string := "h.eyJleHAiOjEwMDB9.s".

(** The same with exp 5000. *)
Definition jwt_5000 : string := "h.eyJleHAiOjUwMDB9.s".

Definition empty_world : World := mkWorld ∅ [].

(** A store whose access token expires at second 1000, with a refresh
    token. *)
Definition expired_world : World :=
  mkWorld {[ "auth_token" := jwt_1000; "refresh_token" := "r1" ]} [].

(** The same without refresh token. *)
Definition orphan_world : World :=
  mkWorld {[ "auth_token" := jwt_1000 ]} [].

(** A store whose access token expires at second 5000. *)
Definition fresh_world : World :=
  mkWorld {[ "auth_token" := jwt_5000; "refresh_token" := "r1" ]} [].

(** The refresh endpoint answers with a token that expires at second
    5000. *)
Definition renewal : FetchResult :=
  HttpOk (Some (mkRefreshBody (Some jwt_5000) None None)).

Definition run_from (w : World) (es : list Event) : Manager :=
  default (new_manager w) (@run Browser.platform es (new_manager w)).

(** Three callers at second 800, the answer, the continuations. *)
Definition three_resumes : list Event :=
  [ResumeRefresh 0; ResumeGet 1; ResumeGet 0; ResumeGet 2].

Definition after_three_calls : Manager :=
  run_from expired_world
    ((Call <$> [800000; 800001; 800002]) ++ Respond 0 800500 renewal :: three_resumes).

(** One caller, renewed. *)
Definition after_renewal : Manager :=
  run_from expired_world
    [Call 800000; Respond 0 800500 renewal; ResumeRefresh 0; ResumeGet 0].

(** One caller waiting for the answer. *)
Definition waiting : Manager := run_from expired_world [Call 800000].

(** The same after the endpoint has refused. *)
Definition after_refusal : Manager :=
  run_from expired_world
    [Call 800000; Respond 0 800500 (HttpError 401); ResumeRefresh 0; ResumeGet 0].

(** A response rejected with status 401. *)
Definition rejection : Api.ErrorObj :=
  Api.mkErrorObj (Some "ERR_BAD_REQUEST") (Some "Request failed with status code 401")
    (Some (Api.mkErrorResponse (Some "Invalid credentials") 401)).

Definition quote : string := String "034"%char EmptyString.

Definition member (k v : string) : string :=
  quote +:+ k +:+ quote +:+ ":" +:+ quote +:+ v +:+ quote.

(** [JSON.stringify] on users whose fields need no escaping. *)
Definition stringify_user (u : AuthContext.User) : string :=
  "{" +:+ member "id" (AuthContext.id u) +:+ ","
      +:+ member "name" (AuthContext.name u) +:+ ","
      +:+ member "email" (AuthContext.email u) +:+ ","
      +:+ member "storeName" (AuthContext.storeName u) +:+ ","
      +:+ member "storeId" (AuthContext.storeId u) +:+ "}".

Definition text (v : JsVal) : string :=
  match v with
  | JString s => s
  | _ => EmptyString
  end.

Definition falsy (v : JsVal) : bool :=
  match v with
  | JUndefined | JNull | JBool false | JNumber NaN | JNumber (Num 0)
  | JString EmptyString => true
  | _ => false
  end.

Definition members (v : JsVal) : list (string * JsVal) :=
  match v with
  | JObject fs => fs
  | _ => []
  end.

(** [JSON.parse] of a saved profile; a member that is absent or not a
    string is read as the empty text. *)
Definition parse_user (s : string) : option (option AuthContext.User) :=
  match Browser.JSON_parse_impl s with
  | None => None
  | Some v =>
      Some (if falsy v then None
            else Some (AuthContext.mkUser
                         (text (assoc "id" (members v))) (text (assoc "name" (members v)))
                         (text (assoc "email" (members v)))
                         (text (assoc "storeName" (members v)))
                         (text (assoc "storeId" (members v)))))
  end.

(** The login of the specification's scenario: token t1, user 1 of
    store S. *)
Definition login_ok : AuthContext.Outcome :=
  AuthContext.Ok (Some "t1") (AuthContext.mkUserData 1 "A" "a@b.com" "S" None).

(** A provider that did not mount. *)
Definition unmounted (st : gmap string string) : AuthContext.App :=
  AuthContext.mkApp (AuthContext.mkAuthState None true EmptyString false)
    (new_manager (mkWorld st [])).

Definition app_from (st : gmap string string) (evs : list AuthContext.AppEvent)
    : AuthContext.App :=
  default (unmounted st)
    (AuthContext.start parse_user st
       ≫= @AuthContext.app_run stringify_user parse_user Browser.platform evs).

(** A first visit, before any login. *)
Definition visitor : AuthContext.App := app_from ∅ [AuthContext.InitializeAuth].

(** Logged in: the start-up check, then a login whose request passes
    the request interceptor and is answered with a token. *)
Definition logged_in_events : list AuthContext.AppEvent :=
  AuthContext.InitializeAuth :: AuthContext.login_attempt 0 [] login_ok.

Definition logged_in : AuthContext.App := app_from ∅ logged_in_events.

(** Logged in, then a second login that is rejected with status 401. *)
Definition relogin_rejected : AuthContext.App :=
  app_from ∅ (logged_in_events ++ AuthContext.login_attempt 1 [] (AuthContext.Rejected rejection)).

(** A visitor in whose store an earlier visit has left a token and no
    profile, before and after a login rejected with status 401. *)
Definition leftover_store : gmap string string := {[ "auth_token" := "t0" ]}.

Definition leftover : AuthContext.App := app_from leftover_store [AuthContext.InitializeAuth].

Definition leftover_rejected : AuthContext.App :=
  app_from leftover_store
    (AuthContext.InitializeAuth :: AuthContext.login_attempt 1 [] (AuthContext.Rejected rejection)).

(** Logged in, then one request answered by 401. *)
Definition rejected_session : AuthContext.App :=
  app_from ∅ (AuthContext.InitializeAuth :: AuthContext.login_attempt 0 [] login_ok
              ++ [AuthContext.Token (Call 1); AuthContext.ResponseError rejection]).

(** A store left by an earlier visit: a token that expired at second
    1000, a refresh token, a profile. *)
Definition stale_store : gmap string string :=
  {[ "auth_token" := jwt_1000; "refresh_token" := "r1"; "user_data" := "{}" ]}.

(** The session over it, a first request having started the refresh. *)
Definition refreshing_events : list AuthContext.AppEvent :=
  [AuthContext.InitializeAuth; AuthContext.Token (Call 800000)].

Definition refreshing : AuthContext.App := app_from stale_store refreshing_events.

(** The same store without refresh token, and the session over it. *)
Definition orphan_store : gmap string string :=
  {[ "auth_token" := jwt_1000; "user_data" := "{}" ]}.

Definition orphan_session : AuthContext.App :=
  app_from orphan_store [AuthContext.InitializeAuth].

(** A response rejected for another reason than authorization. *)
Definition outage : Api.ErrorObj :=
  Api.mkErrorObj (Some "ERR_BAD_RESPONSE") (Some "Request failed with status code 500")
    (Some (Api.mkErrorResponse None 500)).

(** The login that the server fails to answer, made over that session:
    the request interceptor's call finds the token expired and no refresh
    token, and returns null. *)
Definition outage_login : list AuthContext.AppEvent :=
  AuthContext.login_attempt 800000 [ResumeGet 0] (AuthContext.Rejected outage).

Definition orphan_rejected : AuthContext.App :=
  app_from orphan_store (AuthContext.InitializeAuth :: outage_login).

(** A session over a store in which all four fields are present. *)
Definition full_session : AuthContext.App :=
  app_from {[ "auth_token" := jwt_5000; "refresh_token" := "r1";
              "token_expires_at" := "5000000"; "user_data" := "{}" ]}
           [AuthContext.InitializeAuth].

End Demo.

(** ** Configuration, URLs and headers ([api.ts], [tokenManager.ts]) *)

Module Config.

(** [apiUrl.replace(/\/$/, '')]: the pattern matches one slash at the
    very end of the string. *)
Fixpoint strip_trailing_slash (s : string) : string :=
  match s with
  | EmptyString => EmptyString
  | String c EmptyString => if bool_decide (c = "/"%char) then EmptyString else s
  | String c s' => String c (strip_trailing_slash s')
  end.

Definition fallback : string := "http://localhost:3000".

(** [API_BASE_URL], from [import.meta.env.VITE_API_URL]. *)
Definition API_BASE_URL (VITE_API_URL : option string) : string :=
  match truthy VITE_API_URL with
  | None => fallback
  | Some apiUrl => strip_trailing_slash apiUrl
  end.

(** The URL that [performTokenRefresh] fetches. *)
Definition refresh_url (VITE_API_URL : option string) : string :=
  match truthy VITE_API_URL with
  | Some apiUrl => apiUrl
  | None => fallback
  end +:+ "/api/auth/refresh".

(** The request interceptor: the [Authorization] header set from what
    [getValidAccessToken()] resolved to, if anything. *)
Definition authorization (token : option string) : option string :=
  match truthy token with
  | Some t => Some ("Bearer " +:+ t)
  | None => None
  end.

End Config.

(** ** Dashboard helpers ([Dashboard.tsx]) *)

Module Dashboard.

(** [Math.floor(seconds / 60)] and [Math.floor(seconds % 60)] on a whole
    number of seconds: [/] floors, [%] takes the sign of the dividend. *)
Definition minutes_of (seconds : Z) : Z := seconds / 60.
Definition seconds_of (seconds : Z) : Z := Z.rem seconds 60.

Definition formatTime (seconds : Z) : string :=
  pretty (minutes_of seconds) +:+ "m " +:+ pretty (seconds_of seconds) +:+ "s".

Record Insight : Type := mkInsight {
  id : string;
  zone : string;
  time : string;
  feedback : string;
  type : string;
  category : string;
}.

(** The list that [loadDashboardData] hands to [setInsights]:
    [insightObj.insights || ''] first, if truthy, then one entry per
    recommendation.  [now] and [at_] are the values of
    [new Date().toLocaleTimeString()] at each entry. *)
Definition realInsights (now : string) (at_ : nat → string)
    (insights : option string) (recommendations : list string) : list Insight :=
  match truthy insights with
  | Some text => [mkInsight "1" "Store-wide" now text "info" "AI Insight"]
  | None => []
  end
  ++ imap (λ index rec,
       mkInsight (pretty (Z.of_nat index + 2)) "Store-wide" (at_ index) rec
                 "success" "Recommendation") recommendations.

End Dashboard.

(** ** Camera list ([CameraSetup.tsx]) *)

Module CameraSetup.

Section WithFields.
(** The fields of a camera that [loadCameras] only copies. *)
Variable Fields : Type.

Record Camera : Type := mkCamera {
  id : Z;
  fields : Fields;
  detection_active : option bool;
  enabled_features : option (list string);
}.

(** An entry of [statusResponse.data.cameras]. *)
Record Status : Type := mkStatus {
  camera_id : Z;
  status_active : option bool;
  status_features : option (list string);
}.

(** [statusData.find(s => s.camera_id === camera.id)]. *)
Fixpoint find_status (statusData : list Status) (camera : Camera) : option Status :=
  match statusData with
  | [] => None
  | s :: rest => if bool_decide (camera_id s = id camera) then Some s
                 else find_status rest camera
  end.

(** One step of the [map]: [...camera] with the two fields overridden. *)
Definition enrich (statusData : list Status) (camera : Camera) : Camera :=
  let status := find_status statusData camera in
  mkCamera (id camera) (fields camera)
    (Some (match status ≫= status_active with
           | Some b => b
           | None => false
           end))
    (Some (match status ≫= status_features with
           | Some fs => fs
           | None => []
           end)).

(** What [loadCameras] passes to [setCameras]: [None] stands for a
    response that is not an array (and, for the status, for a response
    without [success]). *)
Definition loaded (cameras : option (list Camera)) (statuses : option (list Status))
    : list Camera :=
  let camerasData := default [] cameras in
  match statuses with
  | Some statusData => enrich statusData <$> camerasData
  | None => camerasData
  end.

End WithFields.

End CameraSetup.

(** ** Coherence of the token manager *)

Module Coherence.
Import TokenManager.

(** What every manager reached from a fresh one satisfies; [n0] is the
    number of refresh calls in the log it was created over. *)
Record coherent (n0 : nat) (m : Manager) : Prop := mkCoherent {
  pending_in_slot :
    ∀ p rt, promises m !! p = Some (Pending rt) → refreshPromise m = Some p;
  owner_in_slot :
    ∀ i q, callers m !! i = Some (InRefresh q) →
           refreshPromise m = Some q ∧
           ∀ j q', callers m !! j = Some (InRefresh q') → j = i;
  slot_has_owner :
    ∀ p, refreshPromise m = Some p → ∃ i, callers m !! i = Some (InRefresh p);
  waits_for_promise :
    ∀ i q, callers m !! i = Some (InRefresh q) ∨ callers m !! i = Some (InGet q) →
           is_Some (promises m !! q);
  one_fetch_per_promise :
    count is_fetch (effects (world m)) = (n0 + length (promises m))%nat;
}.

(** Caller [i] can take a step now. *)
Definition can_resume `{Platform} (i : nat) (m : Manager) : Prop :=
  is_Some (step (ResumeRefresh i) m) ∨ is_Some (step (ResumeGet i) m).

End Coherence.

(** * Properties *)

Section Truthiness.

Lemma truthy_Some (s : string) : s ≠ EmptyString → truthy (Some s) = Some s.
Proof. intros Hs. unfold truthy. by rewrite bool_decide_eq_false_2. Qed.

Lemma truthy_inv (o : option string) (s : string) :
  truthy o = Some s → o = Some s ∧ s ≠ EmptyString.
Proof.
  destruct o as [s'|]; simpl; [|done].
  case_bool_decide; [done|]. intros [= ->]. done.
Qed.

Lemma or_else_Some (s : string) (b : option string) :
  s ≠ EmptyString → or_else (Some s) b = Some s.
Proof. intros Hs. unfold or_else. by rewrite truthy_Some. Qed.

End Truthiness.

Section Expiry.
Context `{Platform}.
Import TokenManager Spec Inv.

(** [isTokenExpired] on an explicit, non-empty token, in closed form. *)
Lemma isTokenExpired_decoded (now : Z) (w : World) (token : string) :
  token ≠ EmptyString →
  isTokenExpired now w (Some token) =
    num_lt (num_sub (num_mul (decoded_exp token) (Num 1000)) (Num now)) (Num fiveMinutes).
Proof.
  intros Hne. unfold isTokenExpired, decoded_exp.
  rewrite or_else_Some, truthy_Some by done.
  case_bool_decide as Hloc; [by subst token|].
  unfold parse_payload.
  destruct (split_on "." token) as [|a [|b [|c [|d l]]]]; simpl; try done.
  destruct (atob b) as [json|]; simpl; [|done].
  destruct (JSON_parse json) as [payload|]; simpl; [|done].
  by destruct (get_prop payload "exp").
Qed.

(** The longer one waits, the more expired a token is. *)
Lemma isTokenExpired_mono (t0 t : Z) (w : World) (token : string) :
  token ≠ EmptyString → t0 ≤ t →
  isTokenExpired t0 w (Some token) = true →
  isTokenExpired t w (Some token) = true.
Proof.
  intros Hne Hle. rewrite !isTokenExpired_decoded by done.
  destruct (decoded_exp token) as [|e]; simpl; [done|].
  rewrite !bool_decide_eq_true. lia.
Qed.

(** The world plays no part when the token is given. *)
Lemma isTokenExpired_world (now : Z) (w w' : World) (token : string) :
  token ≠ EmptyString →
  isTokenExpired now w (Some token) = isTokenExpired now w' (Some token).
Proof. intros Hne. by rewrite !isTokenExpired_decoded. Qed.

(** C2 (amended): for a non-empty token whose expiry claim decodes to
    the number [e] (seconds), [isTokenExpired] is true exactly when
    [now + skew > e * 1000] (milliseconds, [skew] fixed at 300 s and the
    inequality strict); for a non-empty token without a decodable numeric
    expiry claim it is false. *)
Theorem isTokenExpired_spec (now : Z) (w : World) (token : string) :
  token ≠ EmptyString →
  match decoded_exp token with
  | Num e => isTokenExpired now w (Some token) = true ↔ now + skew > e * 1000
  | NaN => isTokenExpired now w (Some token) = false
  end.
Proof.
  intros Hne. rewrite isTokenExpired_decoded by done.
  destruct (decoded_exp token) as [|e]; simpl; [done|].
  rewrite bool_decide_eq_true. unfold fiveMinutes, skew. lia.
Qed.

End Expiry.

(** The amended C2 at a token that expires at second 1000, read 300 s
    and 1 ms before that. *)
Lemma isTokenExpired_spec_witness :
  Demo.jwt_1000 ≠ EmptyString ∧
  (@TokenManager.isTokenExpired Browser.platform 700001 Demo.empty_world (Some Demo.jwt_1000) = true
   ↔ 700001 + Spec.skew > 1000 * 1000).
Proof.
  split; [done|].
  exact (@isTokenExpired_spec Browser.platform 700001 Demo.empty_world Demo.jwt_1000
           ltac:(done)).
Defined.

(** C2 as stated fails on the boundary: exactly 300 s before the expiry
    [now + skew >= exp] holds, and [isTokenExpired] answers false. *)
Lemma isTokenExpired_boundary_counterexample :
  @Spec.decoded_exp Browser.platform Demo.jwt_1000 = Num 1000 ∧
  ¬ (@TokenManager.isTokenExpired Browser.platform 700000 Demo.empty_world
       (Some Demo.jwt_1000) = true
     ↔ 700000 + Spec.skew >= 1000 * 1000).
Proof.
  split; [by vm_compute|].
  intros [_ Hclaim].
  assert (Hge : 700000 + Spec.skew >= 1000 * 1000) by (vm_compute; discriminate).
  specialize (Hclaim Hge). vm_compute in Hclaim. discriminate.
Qed.

(** ** The effect log *)

Section Log.

Lemma count_app (p : Effect → bool) (l1 l2 : list Effect) :
  count p (l1 ++ l2) = (count p l1 + count p l2)%nat.
Proof. unfold count. by rewrite filter_app, length_app. Qed.

Lemma count_nil (p : Effect → bool) : count p [] = 0%nat.
Proof. done. Qed.

Lemma count_cons (p : Effect → bool) (e : Effect) (l : list Effect) :
  count p (e :: l) = ((if p e then 1 else 0) + count p l)%nat.
Proof.
  unfold count. rewrite filter_cons. destruct (p e); by case_decide.
Qed.

Lemma count_none (p : Effect → bool) (l : list Effect) :
  Forall (λ e, p e = false) l → count p l = 0%nat.
Proof.
  induction 1 as [|e l He _ IH]; [done|]. rewrite count_cons, He, IH. done.
Qed.

End Log.

Ltac count_log :=
  rewrite ?count_app, ?count_cons, ?count_nil; cbn; try lia.

(** What [clearTokens] and [setTokens] do to the world. *)
Section Tokens.
Import TokenManager.

Lemma clearTokens_storage (w : World) :
  storage (clearTokens w) =
    delete "user_data" (delete "token_expires_at"
      (delete "refresh_token" (delete "auth_token" (storage w)))).
Proof. done. Qed.

Lemma clearTokens_effects (w : World) :
  effects (clearTokens w) =
    effects w ++ [RemoveItem "auth_token"; RemoveItem "refresh_token";
                  RemoveItem "token_expires_at"; RemoveItem "user_data"].
Proof. unfold clearTokens, removeItem. simpl. by rewrite <- !app_assoc. Qed.

Lemma clearTokens_cleared (w : World) : store_cleared (clearTokens w).
Proof.
  intros k Hk. rewrite clearTokens_storage.
  unfold credential_keys in Hk.
  repeat (apply elem_of_cons in Hk as [->|Hk]); [..|by apply elem_of_nil in Hk];
    by simplify_map_eq.
Qed.

Lemma setTokens_effects (now : Z) (td : TokenData) (w : World) :
  effects (setTokens now td w) =
    effects w ++ [SetItem "auth_token" (access_token td);
                  SetItem "refresh_token" (refresh_token td);
                  SetItem "token_expires_at" (pretty (now + expires_at td * 1000))].
Proof. unfold setTokens, setItem. simpl. by rewrite <- !app_assoc. Qed.

Lemma setTokens_access (now : Z) (td : TokenData) (w : World) :
  getAccessToken (setTokens now td w) = Some (access_token td).
Proof. unfold getAccessToken, getItem, setTokens, setItem. simpl. by simplify_map_eq. Qed.

(** Settling a refresh writes to [localStorage] and does nothing else. *)
Lemma settle_effects (now : Z) (r : FetchResult) (rt : string) (w : World) :
  ∃ l, effects (snd (performTokenRefresh_settle now r rt w)) = effects w ++ l ∧
       Forall (λ e, is_fetch e = false ∧ is_timer e = false ∧ is_href e = false) l.
Proof.
  destruct r as [|st|[data|]]; cbn -[clearTokens setTokens];
    rewrite ?clearTokens_effects, ?setTokens_effects;
    eexists; (split; [reflexivity|]); repeat constructor.
Qed.

End Tokens.

Section Lists.

Lemma lookup_snoc {A} (l : list A) (x : A) : (l ++ [x]) !! length l = Some x.
Proof. by rewrite lookup_app_r, Nat.sub_diag. Qed.

Lemma insert_snoc {A} (l : list A) (x y : A) : <[length l := y]> (l ++ [x]) = l ++ [y].
Proof. by rewrite insert_app_r_alt, Nat.sub_diag. Qed.

End Lists.

(** What the answer of the refresh endpoint settles. *)
Section Settle.
Context `{Platform}.
Import TokenManager Spec.

Lemma settle_failed (now : Z) (r : FetchResult) (rt : string) (w : World) :
  failed r → performTokenRefresh_settle now r rt w = (false, clearTokens w).
Proof. by destruct r as [| |[]]. Qed.

Lemma settle_renewed (now : Z) (r : FetchResult) (rt : string) (w : World) :
  getAccessToken (snd (performTokenRefresh_settle now r rt w)) = renewed r ∧
  fst (performTokenRefresh_settle now r rt w) = bool_decide (is_Some (renewed r)).
Proof.
  destruct r as [| |[data|]]; cbn -[setTokens clearTokens];
    rewrite ?setTokens_access; (split; [|done]); try done;
    unfold getAccessToken, getItem; rewrite clearTokens_storage; by simplify_map_eq.
Qed.

End Settle.

(** ** Single-flight refresh *)

Section SingleFlight.
Context `{Platform}.
Import TokenManager Spec Inv.

Lemma isTokenExpired_local (now : Z) (w : World) :
  isTokenExpired now w (Some "local-test-token") = false.
Proof. done. Qed.

(** The first caller that finds the token expired, with a refresh token
    at hand and no refresh under way, issues the network call. *)
Lemma expired_call_idle (t : Z) (m : Manager) (tok rt : string) :
  truthy (getAccessToken (world m)) = Some tok →
  isTokenExpired t (world m) (Some tok) = true →
  refreshPromise m = None →
  truthy (getRefreshToken (world m)) = Some rt →
  getValidAccessToken_start t m =
    mkManager (emit (Fetch rt) (world m)) (Some (length (promises m)))
              (promises m ++ [Pending rt]) (callers m ++ [InRefresh (length (promises m))]).
Proof.
  intros Htok Hexp Hslot Hrt. unfold getValidAccessToken_start. rewrite Htok.
  case_bool_decide as Hloc; [subst tok; by rewrite isTokenExpired_local in Hexp|].
  rewrite Hexp. simpl. unfold refreshAccessToken_start. by rewrite Hslot, Hrt.
Qed.

(** A caller that finds the token expired while a refresh promise sits in
    the slot attaches to it and touches nothing. *)
Lemma expired_call_attached (t : Z) (m : Manager) (tok : string) (p : nat) :
  truthy (getAccessToken (world m)) = Some tok →
  isTokenExpired t (world m) (Some tok) = true →
  refreshPromise m = Some p →
  getValidAccessToken_start t m = add_caller (InGet p) m.
Proof.
  intros Htok Hexp Hslot. unfold getValidAccessToken_start. rewrite Htok.
  case_bool_decide as Hloc; [subst tok; by rewrite isTokenExpired_local in Hexp|].
  rewrite Hexp. simpl. unfold refreshAccessToken_start. by rewrite Hslot.
Qed.

Lemma run_app (es1 es2 : list Event) (m : Manager) :
  run (es1 ++ es2) m = run es1 m ≫= run es2.
Proof.
  revert m. induction es1 as [|e es1 IH]; intros m; simpl; [done|].
  destruct (step e m); simpl; [apply IH|done].
Qed.

Lemma later_calls (ts : list Z) (t0 : Z) (w : World) (tok : string) (p : nat)
    (ps : list PromiseState) (cs : list Caller) :
  truthy (getAccessToken w) = Some tok →
  isTokenExpired t0 w (Some tok) = true →
  Forall (λ t, t0 ≤ t) ts →
  run (Call <$> ts) (mkManager w (Some p) ps cs) =
    Some (mkManager w (Some p) ps (cs ++ replicate (length ts) (InGet p))).
Proof.
  intros Htok Hexp Hts. revert cs.
  induction Hts as [|t ts Ht _ IH]; intros cs; simpl.
  - by rewrite app_nil_r.
  - rewrite (expired_call_attached t _ tok p); simpl; [|done| |done].
    + unfold add_caller. simpl. rewrite IH. by rewrite <- app_assoc.
    + apply truthy_inv in Htok as [_ Hne].
      by apply (isTokenExpired_mono t0).
Qed.

(** The state in which [n] concurrent callers wait for one refresh. *)
Lemma concurrent_calls (ts : list Z) (t0 : Z) (m : Manager) (tok rt : string) :
  refreshPromise m = None →
  truthy (getAccessToken (world m)) = Some tok →
  isTokenExpired t0 (world m) (Some tok) = true →
  truthy (getRefreshToken (world m)) = Some rt →
  ts ≠ [] →
  Forall (λ t, t0 ≤ t) ts →
  run (Call <$> ts) m =
    Some (mkManager (emit (Fetch rt) (world m)) (Some (length (promises m)))
            (promises m ++ [Pending rt])
            (callers m ++ InRefresh (length (promises m))
                          :: replicate (length ts - 1) (InGet (length (promises m))))).
Proof.
  intros Hslot Htok Hexp Hrt Hne Hts.
  destruct ts as [|t ts]; [done|]. apply Forall_cons in Hts as [Ht Hts].
  assert (Htokne : tok ≠ EmptyString) by (by apply truthy_inv in Htok as [_ ?]).
  cbn [fmap list_fmap run step].
  rewrite (expired_call_idle t _ tok rt); [|done| |done|done].
  - rewrite (later_calls ts t0 _ tok); simpl; [|done| |done].
    + by rewrite Nat.sub_0_r, <- app_assoc.
    + by rewrite <- (isTokenExpired_world t0 (world m)).
  - by apply (isTokenExpired_mono t0).
Qed.

Lemma settled_step st base b p cs0 n (e : Event) (m m' : Manager) :
  Forall (λ c, is_returned c = true) cs0 →
  is_resume e = true → step e m = Some m' →
  settled st base b p cs0 n m → settled st base b p cs0 n m'.
Proof.
  intros Hcs0 He Hstep [Hst [hs [Heff Hhs]] Hp (new & Hcs & Hlen & Hnew & Hslot)].
  (* a continuation of caller [i] is one of the refresh's callers *)
  assert (Hidx : ∀ i c, callers m !! i = Some c → is_returned c = false →
    ∃ j, i = (length cs0 + j)%nat ∧ new !! j = Some c ∧
         ∀ c', <[i := c']> (callers m) = cs0 ++ <[j := c']> new).
  { intros i c Hi Hc. rewrite Hcs in Hi.
    destruct (decide (i < length cs0)%nat) as [Hlt|Hge].
    - rewrite lookup_app_l in Hi by done.
      eapply Forall_lookup_1 in Hcs0; [|exact Hi]. congruence.
    - exists (i - length cs0)%nat. split; [lia|].
      rewrite lookup_app_r in Hi by lia. split; [done|].
      intros c'. rewrite Hcs. apply insert_app_r_alt. lia. }
  destruct e as [| |i|i]; try done; simpl in Hstep.
  - (* ResumeRefresh *)
    destruct (callers m !! i) as [[q| | |]|] eqn:Hi; try done.
    destruct (Hidx i _ Hi eq_refl) as (j & -> & Hj & Hins).
    assert (q = p) as ->.
    { eapply Forall_lookup_1 in Hnew; [|exact Hj].
      destruct Hnew as [?|[?|[?|?]]]; congruence. }
    rewrite Hp in Hstep. injection Hstep as <-.
    split; simpl; eauto.
    exists (<[j := InGetVal b]> new). rewrite Hins, length_insert.
    repeat split; auto. apply Forall_insert; auto.
  - (* ResumeGet *)
    assert (Hres : getValidAccessToken_resume i b m = m' ∧
                   ∃ c, callers m !! i = Some c ∧ is_returned c = false ∧ c ≠ InRefresh p).
    { destruct (callers m !! i) as [[q|q|b'|]|] eqn:Hi; try done.
      - destruct (Hidx i _ Hi eq_refl) as (j & -> & Hj & _).
        eapply Forall_lookup_1 in Hnew; [|exact Hj].
        assert (q = p) as -> by (destruct Hnew as [?|[?|[?|?]]]; congruence).
        rewrite Hp in Hstep. injection Hstep as <-. eauto.
      - destruct (Hidx i _ Hi eq_refl) as (j & -> & Hj & _).
        eapply Forall_lookup_1 in Hnew; [|exact Hj].
        assert (b' = b) as -> by (destruct Hnew as [?|[?|[?|?]]]; congruence).
        injection Hstep as <-. eauto. }
    destruct Hres as [<- (c & Hi & Hc & Hcp)].
    destruct (Hidx i c Hi Hc) as (j & -> & Hj & Hins).
    assert (Hslot' : ∀ c', (∃ k, <[j := c']> new !! k = Some (InRefresh p))
                           ∨ refreshPromise m = None).
    { intros c'. destruct Hslot as [[k Hk]|Hnone]; [left|by right].
      exists k. rewrite list_lookup_insert_ne; [done|]. intros ->. congruence. }
    unfold getValidAccessToken_resume. destruct b; simpl.
    + split; simpl; eauto.
      eexists. rewrite Hins, length_insert. repeat split; auto.
      apply Forall_insert; [done|]. unfold getAccessToken, getItem. rewrite Hst. auto.
    + split; simpl; eauto.
      * exists (hs ++ [SetHref "/"]). rewrite Heff, <- app_assoc. split; [done|].
        apply Forall_app. split; [done|]. by repeat constructor.
      * eexists. rewrite Hins, length_insert. repeat split; auto.
        apply Forall_insert; auto.
Qed.

Lemma settled_run st base b p cs0 n (es : list Event) (m m' : Manager) :
  Forall (λ c, is_returned c = true) cs0 →
  Forall (λ e, is_resume e = true) es → run es m = Some m' →
  settled st base b p cs0 n m → settled st base b p cs0 n m'.
Proof.
  intros Hcs0 Hes. revert m. induction Hes as [|e es He _ IH]; intros m; simpl.
  - by intros [= ->].
  - destruct (step e m) as [m1|] eqn:Hstep; [|done].
    intros Hrun Hinv. eapply IH; [done|]. by eapply settled_step.
Qed.

Lemma Forall_eq_replicate {A} (x : A) (l : list A) :
  Forall (λ y, y = x) l → l = replicate (length l) x.
Proof. induction 1 as [|y l -> _ IH]; simpl; [done|]. by f_equal. Qed.

(** A call that has not returned is one of the callers of the settled
    refresh. *)
Lemma settled_waiting st base b p cs0 n (m : Manager) (i : nat) (c : Caller) :
  Forall (λ c, is_returned c = true) cs0 →
  settled st base b p cs0 n m →
  callers m !! i = Some c → is_returned c = false →
  c = InRefresh p ∨ c = InGet p ∨ c = InGetVal b.
Proof.
  intros Hcs0 [_ _ _ (new & Hcs & _ & Hnew & _)] Hi Hc. rewrite Hcs in Hi.
  apply lookup_app_Some in Hi as [Hi|[_ Hi]].
  - eapply Forall_lookup_1 in Hcs0; [|exact Hi]. congruence.
  - eapply Forall_lookup_1 in Hnew; [|exact Hi].
    destruct Hnew as [?|[?|[?|?]]]; subst; auto. done.
Qed.

Lemma remaining_insert (cs : list Caller) (i : nat) (c c' : Caller) :
  cs !! i = Some c →
  (remaining (<[i := c']> cs) + pending_steps c = remaining cs + pending_steps c')%nat.
Proof.
  unfold remaining, fmap. revert i.
  induction cs as [|x cs IH]; intros [|i]; simpl; try done.
  - intros [= ->]. lia.
  - intros Hi. specialize (IH i Hi). lia.
Qed.

Lemma remaining_0 (cs : list Caller) :
  remaining cs = 0%nat → Forall (λ c, is_returned c = true) cs.
Proof.
  unfold remaining, fmap. induction cs as [|c cs IH]; simpl; [done|].
  intros Hsum. constructor; [by destruct c|]. apply IH. lia.
Qed.

Lemma remaining_pos (cs : list Caller) :
  remaining cs ≠ 0%nat → ∃ i c, cs !! i = Some c ∧ is_returned c = false.
Proof.
  unfold remaining, fmap. induction cs as [|c cs IH]; simpl; [done|].
  intros Hsum. destruct (is_returned c) eqn:Hc.
  - destruct IH as (i & c' & Hi & Hc'); [by destruct c|]. by exists (S i), c'.
  - by exists 0%nat, c.
Qed.

(** Once the refresh has settled, the continuations that are left can
    all be run: every caller returns. *)
Lemma settled_complete st base b p cs0 n (m : Manager) :
  Forall (λ c, is_returned c = true) cs0 →
  settled st base b p cs0 n m →
  ∃ conts m', Forall (λ e, is_resume e = true) conts ∧
              run conts m = Some m' ∧
              Forall (λ c, is_returned c = true) (callers m').
Proof.
  intros Hcs0. remember (remaining (callers m)) as k eqn:Hk. revert m Hk.
  induction k as [k IH] using lt_wf_ind. intros m Hk Hinv.
  destruct (decide (k = 0%nat)) as [->|Hpos].
  { exists [], m. split; [done|]. split; [done|]. by apply remaining_0. }
  destruct (remaining_pos (callers m)) as (i & c & Hi & Hc); [congruence|].
  pose proof (settled_promise _ _ _ _ _ _ _ Hinv) as Hp.
  assert (∃ e m1 c', is_resume e = true ∧ step e m = Some m1 ∧
                     callers m1 = <[i := c']> (callers m) ∧
                     (pending_steps c' < pending_steps c)%nat)
    as (e & m1 & c' & He & Hstep & Hcs1 & Hlt).
  { destruct (settled_waiting _ _ _ _ _ _ m i c Hcs0 Hinv Hi Hc) as [-> | [-> | ->]].
    - exists (ResumeRefresh i), (refreshAccessToken_resume i b m), (InGetVal b).
      simpl. rewrite Hi, Hp. repeat split; lia.
    - exists (ResumeGet i), (getValidAccessToken_resume i b m).
      destruct b; eexists; simpl; rewrite Hi, Hp;
        (split; [done|split; [done|split; [reflexivity|simpl; lia]]]).
    - exists (ResumeGet i), (getValidAccessToken_resume i b m).
      destruct b; eexists; simpl; rewrite Hi;
        (split; [done|split; [done|split; [reflexivity|simpl; lia]]]). }
  pose proof (remaining_insert (callers m) i c c' Hi) as Hrem. rewrite <- Hcs1 in Hrem.
  destruct (IH (remaining (callers m1)) ltac:(lia) m1 eq_refl) as (conts & m' & Hconts & Hrun & Hall).
  { by eapply settled_step. }
  exists (e :: conts), m'. split; [by constructor|]. split; [|done].
  simpl. by rewrite Hstep.
Qed.

(** The state in which the refresh has been answered and no
    continuation has run yet. *)
Lemma answered (m : Manager) (tok rt : string) (t0 : Z) (ts : list Z)
    (tr : Z) (r : FetchResult) :
  refreshPromise m = None →
  truthy (getAccessToken (world m)) = Some tok →
  isTokenExpired t0 (world m) (Some tok) = true →
  truthy (getRefreshToken (world m)) = Some rt →
  ts ≠ [] →
  Forall (λ t, t0 ≤ t) ts →
  ∃ m2 b l, run ((Call <$> ts) ++ [Respond (length (promises m)) tr r]) m = Some m2 ∧
            settled (storage (world m2)) (effects (world m2)) b (length (promises m))
                    (callers m) (length ts) m2 ∧
            effects (world m2) = effects (world m) ++ Fetch rt :: l ∧
            Forall (λ e, is_fetch e = false) l ∧
            (if b then storage (world m2) !! "auth_token" else None) = renewed r.
Proof.
  intros Hidle Htok Hexp Hrt Hne Hts.
  rewrite run_app, (concurrent_calls ts t0 m tok rt) by done.
  cbn [mbind option_bind run step promises world refreshPromise callers].
  rewrite lookup_snoc.
  set (w1 := emit (Fetch rt) (world m)).
  destruct (settle_effects tr r rt w1) as (l & Hl & Hlf).
  destruct (settle_renewed tr r rt w1) as [Hacc Hb].
  destruct (performTokenRefresh_settle tr r rt w1) as [b w2].
  rewrite insert_snoc. simpl in Hl, Hacc, Hb.
  eexists _, b, l. split; [reflexivity|]. cbn [world callers].
  split; [|split; [|split]].
  - split; simpl.
    + done.
    + exists []. by rewrite app_nil_r.
    + apply lookup_snoc.
    + eexists. split; [done|]. split; [|split].
      * simpl. rewrite length_replicate. destruct ts; [done|simpl; lia].
      * constructor; [auto|]. apply Forall_replicate. auto.
      * left. by exists 0%nat.
  - rewrite Hl. unfold w1, emit. cbn [effects]. by rewrite <- app_assoc.
  - eapply Forall_impl; [exact Hlf|]. by intros ? [? ?].
  - subst b. unfold getAccessToken, getItem in Hacc. rewrite Hacc.
    case_bool_decide as Hr; [done|]. destruct (renewed r); [|done].
    exfalso. apply Hr. eauto.
Qed.

(** C1: on a manager with no refresh under way and no call pending,
    [N >= 1] calls of [getValidAccessToken()] are made while the stored
    token is expired and a refresh token is stored.
    - The calls always run and issue exactly one refresh network call:
      the first caller starts it and occupies the in-progress slot, the
      others attach to its promise, and until the endpoint has answered
      no continuation can run, so that the slot stays occupied.
    - The answer can always be followed by continuations that let all N
      callers return.
    - Whatever continuations follow the answer, in whatever order: one
      network call has been issued and no more; every one of the N
      callers that has returned has returned the outcome of that one
      attempt (the renewed token, or null when the attempt failed); once
      all have returned the slot is free again; and the callers that
      have not returned yet can still all return. *)
Theorem single_flight (m : Manager) (tok rt : string) (t0 : Z) (ts : list Z)
    (tr : Z) (r : FetchResult) :
  refreshPromise m = None →
  Forall (λ c, is_returned c = true) (callers m) →
  truthy (getAccessToken (world m)) = Some tok →
  isTokenExpired t0 (world m) (Some tok) = true →
  truthy (getRefreshToken (world m)) = Some rt →
  ts ≠ [] →
  Forall (λ t, t0 ≤ t) ts →
  let p := length (promises m) in
  let outcome := Returned (renewed r) in
  (∃ m1, run (Call <$> ts) m = Some m1 ∧
         effects (world m1) = effects (world m) ++ [Fetch rt] ∧
         refreshPromise m1 = Some p ∧
         promises m1 = promises m ++ [Pending rt] ∧
         callers m1 = callers m ++ InRefresh p :: replicate (length ts - 1) (InGet p) ∧
         ∀ e, is_resume e = true → step e m1 = None) ∧
  (∃ conts m', Forall (λ e, is_resume e = true) conts ∧
               run ((Call <$> ts) ++ Respond p tr r :: conts) m = Some m' ∧
               Forall (λ c, is_returned c = true) (callers m')) ∧
  (∀ conts m',
     Forall (λ e, is_resume e = true) conts →
     run ((Call <$> ts) ++ Respond p tr r :: conts) m = Some m' →
     count is_fetch (effects (world m')) = S (count is_fetch (effects (world m))) ∧
     (∃ cs, callers m' = callers m ++ cs ∧ length cs = length ts ∧
            Forall (λ c, is_returned c = true → c = outcome) cs) ∧
     (Forall (λ c, is_returned c = true) (callers m') →
      callers m' = callers m ++ replicate (length ts) outcome ∧
      refreshPromise m' = None) ∧
     (∃ more m'', Forall (λ e, is_resume e = true) more ∧
                  run more m' = Some m'' ∧
                  Forall (λ c, is_returned c = true) (callers m''))).
Proof.
  intros Hidle Hold Htok Hexp Hrt Hne Hts p outcome.
  destruct (answered m tok rt t0 ts tr r) as (m2 & b & l & Hrun2 & Hinv2 & Heff2 & Hl & Hout);
    try done.
  fold p in Hrun2, Hinv2.
  assert (Hsplit : ∀ conts, run ((Call <$> ts) ++ Respond p tr r :: conts) m = run conts m2).
  { intros conts. change (Respond p tr r :: conts) with ([Respond p tr r] ++ conts).
    by rewrite app_assoc, run_app, Hrun2. }
  split; [|split].
  - eexists. split; [by apply (concurrent_calls ts t0 m tok rt)|]. simpl. fold p.
    repeat split; try done.
    intros e He. destruct e as [| |i|i]; try done; simpl.
    + destruct (decide (i < length (callers m))%nat) as [Hlt|Hge].
      * rewrite lookup_app_l by done.
        destruct (lookup_lt_is_Some_2 (callers m) i Hlt) as [c Hc].
        eapply Forall_lookup_1 in Hold; [|exact Hc]. rewrite Hc. by destruct c.
      * rewrite lookup_app_r by lia.
        destruct (i - length (callers m))%nat as [|j] eqn:Hj; simpl.
        { unfold p. by rewrite lookup_snoc. }
        destruct (replicate (length ts - 1) (InGet p) !! j) as [c|] eqn:Hc; [|done].
        apply lookup_replicate in Hc as [-> _]. done.
    + destruct (decide (i < length (callers m))%nat) as [Hlt|Hge].
      * rewrite lookup_app_l by done.
        destruct (lookup_lt_is_Some_2 (callers m) i Hlt) as [c Hc].
        eapply Forall_lookup_1 in Hold; [|exact Hc]. rewrite Hc. by destruct c.
      * rewrite lookup_app_r by lia.
        destruct (i - length (callers m))%nat as [|j] eqn:Hj; simpl; [done|].
        destruct (replicate (length ts - 1) (InGet p) !! j) as [c|] eqn:Hc; [|done].
        apply lookup_replicate in Hc as [-> _]. unfold p. by rewrite lookup_snoc.
  - destruct (settled_complete _ _ _ _ _ _ m2 Hold Hinv2) as (conts & m' & Hconts & Hrun & Hall).
    exists conts, m'. by rewrite Hsplit.
  - intros conts m' Hconts Hrun. rewrite Hsplit in Hrun.
    assert (Hinv : settled (storage (world m2)) (effects (world m2)) b p (callers m)
                           (length ts) m') by (by eapply settled_run).
    pose proof Hinv as [Hst (hs & Heff & Hhs) Hp (new & Hcs & Hlen & Hnew & Hslot)].
    assert (Hret : Forall (λ c, is_returned c = true → c = outcome) new).
    { eapply Forall_impl; [exact Hnew|]. intros c Hc Hr. unfold outcome.
      rewrite <- Hout. destruct Hc as [-> | [-> | [-> | ->]]]; done. }
    split; [|split; [|split]].
    + rewrite Heff, Heff2, !count_app, count_cons.
      rewrite (count_none is_fetch hs), (count_none is_fetch l) by done. simpl. lia.
    + by exists new.
    + intros Hdone. rewrite Hcs in Hdone. apply Forall_app in Hdone as [_ Hdone].
      split.
      * rewrite Hcs. f_equal. rewrite <- Hlen. apply Forall_eq_replicate.
        apply Forall_forall. intros c Hc.
        apply (proj1 (Forall_forall _ _) Hret c Hc).
        apply (proj1 (Forall_forall _ _) Hdone c Hc).
      * destruct Hslot as [[j Hj]|]; [|done].
        eapply Forall_lookup_1 in Hdone; [|exact Hj]. done.
    + by eapply settled_complete.
Qed.

End SingleFlight.

(** ** Outcomes of a refresh *)

Section Refresh.
Context `{Platform}.
Import TokenManager Spec Inv.


(** A continuation leaves the store and the promises alone and issues no
    network call and no timer. *)
Lemma resume_frame (e : Event) (m m' : Manager) :
  is_resume e = true → step e m = Some m' →
  storage (world m') = storage (world m) ∧
  promises m' = promises m ∧
  length (callers m') = length (callers m) ∧
  ∃ hs, effects (world m') = effects (world m) ++ hs ∧
        Forall (λ e, is_fetch e = false ∧ is_timer e = false) hs.
Proof.
  intros He Hstep.
  assert (Hget : ∀ i b, getValidAccessToken_resume i b m = m' →
    storage (world m') = storage (world m) ∧ promises m' = promises m ∧
    length (callers m') = length (callers m) ∧
    ∃ hs, effects (world m') = effects (world m) ++ hs ∧
          Forall (λ e, is_fetch e = false ∧ is_timer e = false) hs).
  { intros i [] <-; simpl; rewrite length_insert; repeat split; try done.
    - exists []. by rewrite app_nil_r.
    - exists [SetHref "/"]. split; [done|]. by repeat constructor. }
  destruct e as [| |i|i]; try done; simpl in Hstep.
  - destruct (callers m !! i) as [[p| | |]|]; try done.
    destruct (promises m !! p) as [[|b]|]; try done.
    injection Hstep as <-. simpl. rewrite length_insert. repeat split; try done.
    exists []. by rewrite app_nil_r.
  - destruct (callers m !! i) as [[p|p|b|]|]; try done.
    + destruct (promises m !! p) as [[|b]|]; try done.
      injection Hstep as Hm. by eapply Hget.
    + injection Hstep as Hm. by eapply Hget.
Qed.

Lemma resume_run_frame (es : list Event) (m m' : Manager) :
  Forall (λ e, is_resume e = true) es → run es m = Some m' →
  storage (world m') = storage (world m) ∧
  promises m' = promises m ∧
  length (callers m') = length (callers m) ∧
  ∃ hs, effects (world m') = effects (world m) ++ hs ∧
        Forall (λ e, is_fetch e = false ∧ is_timer e = false) hs.
Proof.
  intros Hes. revert m. induction Hes as [|e es He _ IH]; intros m; simpl.
  - intros [= ->]. repeat split; try done. exists []. by rewrite app_nil_r.
  - destruct (step e m) as [m1|] eqn:Hstep; [|done]. intros Hrun.
    destruct (resume_frame e m m1 He Hstep) as (Hs1 & Hp1 & Hl1 & hs1 & He1 & Hf1).
    destruct (IH m1 Hrun) as (Hs2 & Hp2 & Hl2 & hs2 & He2 & Hf2).
    repeat split; try congruence.
    exists (hs1 ++ hs2). rewrite He2, He1, <- app_assoc. split; [done|].
    by apply Forall_app.
Qed.


Lemma reports_failure_step (p i : nat) (e : Event) (m m' : Manager) (c : Caller) :
  is_resume e = true → step e m = Some m' →
  promises m !! p = Some (Settled false) →
  callers m !! i = Some c → reports_failure p c →
  ∃ c', callers m' !! i = Some c' ∧ reports_failure p c'.
Proof.
  intros He Hstep Hp Hi Hc.
  assert (Hlt : (i < length (callers m))%nat) by (by eapply lookup_lt_Some).
  assert (Hget : ∀ j b, (j = i → b = false) → getValidAccessToken_resume j b m = m' →
    ∃ c', callers m' !! i = Some c' ∧ reports_failure p c').
  { intros j b Hb <-. destruct (decide (j = i)) as [->|Hne].
    - rewrite (Hb eq_refl). simpl. rewrite list_lookup_insert_eq by done.
      eexists. split; [done|]. unfold reports_failure. auto.
    - destruct b; simpl; rewrite list_lookup_insert_ne by done; eauto. }
  destruct e as [| |j|j]; try done; simpl in Hstep.
  - destruct (callers m !! j) as [[q| | |]|] eqn:Hj; try done.
    destruct (promises m !! q) as [[|b]|] eqn:Hq; try done.
    injection Hstep as <-. simpl. destruct (decide (j = i)) as [->|Hne].
    + rewrite list_lookup_insert_eq by done. eexists. split; [done|].
      rewrite Hi in Hj. injection Hj as ->.
      destruct Hc as [Hc|[Hc|[Hc|Hc]]]; try done.
      injection Hc as ->. rewrite Hp in Hq. injection Hq as <-.
      unfold reports_failure. auto.
    + rewrite list_lookup_insert_ne by done. eauto.
  - destruct (callers m !! j) as [[q|q|b|]|] eqn:Hj; try done.
    + destruct (promises m !! q) as [[|b]|] eqn:Hq; try done.
      injection Hstep as Hm. eapply Hget; [|exact Hm].
      intros ->. rewrite Hi in Hj. injection Hj as ->.
      destruct Hc as [Hc|[Hc|[Hc|Hc]]]; try done.
      injection Hc as ->. rewrite Hp in Hq. by injection Hq as <-.
    + injection Hstep as Hm. eapply Hget; [|exact Hm].
      intros ->. rewrite Hi in Hj. injection Hj as ->.
      destruct Hc as [Hc|[Hc|[Hc|Hc]]]; try done. by injection Hc as ->.
Qed.

Lemma reports_failure_run (p i : nat) (es : list Event) (m m' : Manager) (c : Caller) :
  Forall (λ e, is_resume e = true) es → run es m = Some m' →
  promises m !! p = Some (Settled false) →
  callers m !! i = Some c → reports_failure p c →
  ∃ c', callers m' !! i = Some c' ∧ reports_failure p c'.
Proof.
  intros Hes. revert m c. induction Hes as [|e es He _ IH]; intros m c; simpl.
  - intros [= ->]. eauto.
  - destruct (step e m) as [m1|] eqn:Hstep; [|done]. intros Hrun Hp Hi Hc.
    destruct (reports_failure_step p i e m m1 c He Hstep Hp Hi Hc) as (c1 & Hi1 & Hc1).
    eapply IH; [exact Hrun| |exact Hi1|exact Hc1].
    destruct (resume_frame e m m1 He Hstep) as (_ & -> & _). done.
Qed.

(** C7: when the refresh attempt of promise [p] fails (transport error,
    non-2xx answer, unreadable body), the promise settles with [false], the
    four persisted fields are removed, every caller that waited for the
    attempt and has resolved has resolved with [null], and whatever
    continuations run afterwards, no further refresh call is issued. *)
Theorem refresh_failure_terminal (m : Manager) (p : nat) (rt : string) (now : Z)
    (r : FetchResult) (conts : list Event) (m' : Manager) :
  promises m !! p = Some (Pending rt) →
  failed r →
  Forall (λ e, is_resume e = true) conts →
  run (Respond p now r :: conts) m = Some m' →
  promises m' !! p = Some (Settled false) ∧
  store_cleared (world m') ∧
  count is_fetch (effects (world m')) = count is_fetch (effects (world m)) ∧
  ∀ i o, (callers m !! i = Some (InRefresh p) ∨ callers m !! i = Some (InGet p)) →
         callers m' !! i = Some (Returned o) → o = None.
Proof.
  intros Hp Hfail Hconts Hrun. simpl in Hrun. rewrite Hp in Hrun.
  rewrite settle_failed in Hrun by done.
  set (m1 := mkManager (clearTokens (world m)) (refreshPromise m)
                       (<[p := Settled false]> (promises m)) (callers m)) in Hrun.
  assert (Hp1 : promises m1 !! p = Some (Settled false)).
  { simpl. apply list_lookup_insert_eq. by eapply lookup_lt_Some. }
  destruct (resume_run_frame conts m1 m' Hconts Hrun) as (Hst & Hps & _ & hs & Heff & Hhs).
  split; [by rewrite Hps|]. split; [|split].
  - intros k Hk. rewrite Hst. by apply clearTokens_cleared.
  - rewrite Heff. unfold m1. cbn [world]. rewrite clearTokens_effects, !count_app.
    rewrite (count_none is_fetch hs); [|eapply Forall_impl; [exact Hhs|by intros ? [? ?]]].
    rewrite (count_none is_fetch [_; _; _; _]); [lia|by repeat constructor].
  - intros i o Hi Hret.
    assert (∃ c, callers m1 !! i = Some c ∧ reports_failure p c) as (c & Hc & Hrep).
    { simpl. unfold reports_failure. destruct Hi as [Hi|Hi]; rewrite Hi; eauto. }
    destruct (reports_failure_run p i conts m1 m' c Hconts Hrun Hp1 Hc Hrep) as (c' & Hc' & Hrep').
    rewrite Hret in Hc'. injection Hc' as <-.
    destruct Hrep' as [?|[?|[?|?]]]; congruence.
Qed.

End Refresh.

(** ** [getValidAccessToken] from call to return *)

Section GetValid.
Context `{Platform}.
Import TokenManager Spec Inv.


(** One caller on an idle manager, token expired, refresh token stored:
    the four steps from the call to the return. *)
Lemma solo_refresh (now tr : Z) (r : FetchResult) (m : Manager) (tok rt : string) :
  truthy (getAccessToken (world m)) = Some tok →
  isTokenExpired now (world m) (Some tok) = true →
  refreshPromise m = None →
  truthy (getRefreshToken (world m)) = Some rt →
  let i := length (callers m) in
  let p := length (promises m) in
  let settle := performTokenRefresh_settle tr r rt (emit (Fetch rt) (world m)) in
  run [Call now; Respond p tr r; ResumeRefresh i; ResumeGet i] m =
    Some (mkManager
            (if fst settle then snd settle else set_href "/" (snd settle))
            None (promises m ++ [Settled (fst settle)])
            (callers m ++ [Returned (renewed r)])).
Proof.
  intros Htok Hexp Hslot Hrt i p settle. subst i p.
  cbn [run step]. rewrite (expired_call_idle now m tok rt) by done.
  cbn [promises world callers refreshPromise].
  rewrite lookup_snoc. fold settle.
  pose proof (settle_renewed tr r rt (emit (Fetch rt) (world m))) as [Hacc Hb].
  fold settle in Hacc, Hb. clearbody settle. destruct settle as [b w2].
  cbn [fst snd] in *.
  cbn [promises world callers refreshPromise].
  rewrite lookup_snoc, insert_snoc, lookup_snoc.
  unfold refreshAccessToken_resume. cbn [promises world callers refreshPromise].
  rewrite insert_snoc, lookup_snoc.
  unfold getValidAccessToken_resume, set_caller.
  destruct b; cbn [promises world callers refreshPromise]; rewrite insert_snoc.
  - by rewrite Hacc.
  - symmetry in Hb. apply bool_decide_eq_false in Hb.
    destruct (renewed r); [by destruct Hb|done].
Qed.

(** C8: [getValidAccessToken()] resolves at once with [null] when no
    access token is stored, and at once with the stored token when that
    token is not expired, in both cases without touching the store, the
    network or the slot; when the token is expired (refresh token stored,
    no refresh under way) the caller is suspended on a refresh and, once
    that has settled, resolves with the access token just stored on
    success and with [null] on failure. *)
Theorem getValidAccessToken_spec (now : Z) (m : Manager) :
  (truthy (getAccessToken (world m)) = None →
   getValidAccessToken_start now m = add_caller (Returned None) m) ∧
  (∀ tok, truthy (getAccessToken (world m)) = Some tok →
     isTokenExpired now (world m) (Some tok) = false →
     getValidAccessToken_start now m = add_caller (Returned (Some tok)) m) ∧
  (∀ tok rt tr r,
     truthy (getAccessToken (world m)) = Some tok →
     isTokenExpired now (world m) (Some tok) = true →
     refreshPromise m = None →
     truthy (getRefreshToken (world m)) = Some rt →
     let i := length (callers m) in
     let p := length (promises m) in
     callers (getValidAccessToken_start now m) !! i = Some (InRefresh p) ∧
     ∃ m', run [Call now; Respond p tr r; ResumeRefresh i; ResumeGet i] m = Some m' ∧
           callers m' !! i = Some (Returned (renewed r)) ∧
           getAccessToken (world m') = renewed r ∧
           (failed r ↔ renewed r = None)) ∧
  (∀ tok p rt tr r,
     truthy (getAccessToken (world m)) = Some tok →
     isTokenExpired now (world m) (Some tok) = true →
     refreshPromise m = Some p →
     promises m !! p = Some (Pending rt) →
     let i := length (callers m) in
     callers (getValidAccessToken_start now m) !! i = Some (InGet p) ∧
     world (getValidAccessToken_start now m) = world m ∧
     ∃ m', run [Call now; Respond p tr r; ResumeGet i] m = Some m' ∧
           callers m' !! i = Some (Returned (renewed r)) ∧
           getAccessToken (world m') = renewed r).
Proof.
  split; [|split; [|split]].
  - intros Htok. unfold getValidAccessToken_start. by rewrite Htok.
  - intros tok Htok Hexp. unfold getValidAccessToken_start. rewrite Htok, Hexp.
    simpl. by case_bool_decide.
  - intros tok rt tr r Htok Hexp Hslot Hrt i p. split.
    + rewrite (expired_call_idle now m tok rt) by done. apply lookup_snoc.
    + eexists. split; [by apply (solo_refresh now tr r m tok rt)|].
      cbn [callers world]. split; [apply lookup_snoc|]. split.
      * pose proof (settle_renewed tr r rt (emit (Fetch rt) (world m))) as [Hacc Hb].
        destruct (performTokenRefresh_settle tr r rt (emit (Fetch rt) (world m)))
          as [[] w2]; simpl in *; [done|].
        by rewrite <- Hacc.
      * destruct r as [| |[]]; simpl; split; try done.
  - intros tok p rt tr r Htok Hexp Hslot Hp i.
    cbn [run step]. rewrite (expired_call_attached now m tok p) by done.
    split; [apply lookup_snoc|]. split; [done|].
    cbn [promises add_caller]. rewrite Hp.
    cbn [promises add_caller world callers refreshPromise].
    pose proof (settle_renewed tr r rt (world m)) as [Hacc Hb].
    destruct (performTokenRefresh_settle tr r rt (world m)) as [b w2].
    cbn [fst snd world callers promises] in *. subst i.
    rewrite lookup_snoc, list_lookup_insert_eq by (by eapply lookup_lt_Some).
    eexists. split; [reflexivity|].
    unfold getValidAccessToken_resume, set_caller.
    destruct b; cbn [world callers]; rewrite insert_snoc, lookup_snoc.
    + by rewrite Hacc.
    + symmetry in Hb. apply bool_decide_eq_false in Hb.
      destruct (renewed r); [by destruct Hb|]. split; [done|].
      by rewrite <- Hacc.
Qed.

(** C10: [getValidAccessToken()] on an expired access token with no
    refresh token stored (and no refresh under way): the four persisted
    fields are removed, the caller resolves with [null], and the only
    effects are those removals and the assignment of ["/"] to the location:
    no network call. *)
Theorem expired_without_refresh_token (now : Z) (m : Manager) (tok : string) :
  truthy (getAccessToken (world m)) = Some tok →
  isTokenExpired now (world m) (Some tok) = true →
  refreshPromise m = None →
  truthy (getRefreshToken (world m)) = None →
  let i := length (callers m) in
  ∃ m', run [Call now; ResumeGet i] m = Some m' ∧
        callers m' !! i = Some (Returned None) ∧
        store_cleared (world m') ∧
        effects (world m') =
          effects (world m) ++
            [RemoveItem "auth_token"; RemoveItem "refresh_token";
             RemoveItem "token_expires_at"; RemoveItem "user_data"; SetHref "/"] ∧
        count is_fetch (effects (world m')) = count is_fetch (effects (world m)).
Proof.
  intros Htok Hexp Hslot Hrt i.
  assert (Hcall : getValidAccessToken_start now m =
    mkManager (clearTokens (world m)) None (promises m) (callers m ++ [InGetVal false])).
  { unfold getValidAccessToken_start. rewrite Htok.
    case_bool_decide as Hloc; [subst tok; by rewrite isTokenExpired_local in Hexp|].
    rewrite Hexp. simpl. unfold refreshAccessToken_start. rewrite Hslot, Hrt.
    done. }
  eexists. split.
  { cbn [run step]. rewrite Hcall. cbn [callers]. unfold i. rewrite lookup_snoc.
    reflexivity. }
  unfold getValidAccessToken_resume, set_caller. cbn [callers world promises].
  split; [|split; [|split]].
  - unfold i. by rewrite insert_snoc, lookup_snoc.
  - intros k Hk. unfold set_href, emit. cbn [storage]. by apply clearTokens_cleared.
  - unfold set_href, emit. cbn [effects]. rewrite clearTokens_effects.
    by rewrite <- app_assoc.
  - unfold set_href, emit. cbn [effects]. rewrite clearTokens_effects, !count_app.
    rewrite (count_none is_fetch [_; _; _; _]) by (by repeat constructor).
    rewrite (count_none is_fetch [_]) by (by repeat constructor). lia.
Qed.

End GetValid.

(** ** Authorization rejections *)

Section Rejections.
Import Api.

Lemma response_error_401 (e : ErrorObj) (w : World) :
  is_401 e →
  response_error e w =
    mkWorld (delete "user_data" (delete "auth_token" (storage w)))
            (effects w ++ [RemoveItem "auth_token"; RemoveItem "user_data"; SetHref "/login"]).
Proof.
  intros He. unfold response_error. rewrite bool_decide_eq_true_2 by done.
  unfold set_href, emit, removeItem. simpl. by rewrite <- !app_assoc.
Qed.

Lemma response_error_other (e : ErrorObj) (w : World) :
  ¬ is_401 e → response_error e w = w.
Proof. intros He. unfold response_error. by rewrite bool_decide_eq_false_2. Qed.

Lemma delete_twice (st : gmap string string) :
  delete "user_data" (delete "auth_token"
    (delete "user_data" (delete "auth_token" st))) =
  delete "user_data" (delete "auth_token" st).
Proof.
  apply map_eq. intros k.
  destruct (decide (k = "user_data")) as [->|?]; [by simplify_map_eq|].
  destruct (decide (k = "auth_token")) as [->|?]; by simplify_map_eq.
Qed.

(** C3 (amended): the handler has no guard.  Each of N rejected (401)
    responses removes [auth_token] and [user_data] and assigns ["/login"]
    to the location, so N rejections log N removals of each key and N
    assignments; only the resulting store is the one that a single
    rejection leaves. *)
Theorem rejections_unguarded (es : list ErrorObj) (w : World) :
  Forall is_401 es →
  effects (response_errors es w) =
    effects w ++ mjoin (replicate (length es)
      [RemoveItem "auth_token"; RemoveItem "user_data"; SetHref "/login"]) ∧
  count (is_remove "auth_token") (effects (response_errors es w)) =
    (count (is_remove "auth_token") (effects w) + length es)%nat ∧
  count is_href (effects (response_errors es w)) =
    (count is_href (effects w) + length es)%nat ∧
  (es ≠ [] →
   storage (response_errors es w) = delete "user_data" (delete "auth_token" (storage w))).
Proof.
  intros Hes. revert w. induction Hes as [|e es He _ IH]; intros w.
  - simpl. rewrite app_nil_r. repeat split; try lia. done.
  - cbn [response_errors length replicate mjoin list_join].
    destruct (IH (response_error e w)) as (Heff & Hrm & Hhref & Hst).
    rewrite response_error_401 in Heff, Hrm, Hhref, Hst by done.
    rewrite response_error_401 by done. cbn [effects storage] in *.
    split; [|split; [|split]].
    + rewrite Heff. by rewrite <- !app_assoc.
    + rewrite Hrm, count_app.
      replace (count (is_remove "auth_token") [_; _; _]) with 1%nat by reflexivity. lia.
    + rewrite Hhref, count_app.
      replace (count is_href [_; _; _]) with 1%nat by reflexivity. lia.
    + intros _. destruct es as [|e' es]; [done|].
      rewrite Hst by done. apply delete_twice.
Qed.

End Rejections.

(** ** Proactive refresh *)

Section Proactive.
Context `{Platform}.
Import TokenManager Spec Inv.

(** No event of the token manager arms a timer. *)
Lemma step_no_timer (e : Event) (m m' : Manager) :
  step e m = Some m' →
  count is_timer (effects (world m')) = count is_timer (effects (world m)).
Proof.
  intros Hstep. destruct e as [now|p now r|i|i].
  - injection Hstep as <-. unfold getValidAccessToken_start.
    destruct (truthy (getAccessToken (world m))) as [tok|]; [|done].
    case_bool_decide; [done|].
    destruct (isTokenExpired now (world m) (Some tok)); simpl; [|done].
    unfold refreshAccessToken_start.
    destruct (refreshPromise m); [done|].
    destruct (truthy (getRefreshToken (world m))) as [rt|]; cbn [add_caller world].
    + unfold performTokenRefresh_start, emit. cbn [effects]. count_log.
    + rewrite clearTokens_effects. count_log.
  - simpl in Hstep. destruct (promises m !! p) as [[rt|]|]; try done.
    destruct (settle_effects now r rt (world m)) as (l & Hl & Hlf).
    destruct (performTokenRefresh_settle now r rt (world m)) as [b w2].
    injection Hstep as <-. simpl in *. rewrite Hl, count_app.
    rewrite (count_none is_timer l); [lia|].
    eapply Forall_impl; [exact Hlf|]. by intros ? (? & ? & ?).
  - destruct (resume_frame (ResumeRefresh i) m m' eq_refl Hstep) as (_ & _ & _ & hs & -> & Hhs).
    rewrite count_app, (count_none is_timer hs); [lia|].
    eapply Forall_impl; [exact Hhs|]. by intros ? [? ?].
  - destruct (resume_frame (ResumeGet i) m m' eq_refl Hstep) as (_ & _ & _ & hs & -> & Hhs).
    rewrite count_app, (count_none is_timer hs); [lia|].
    eapply Forall_impl; [exact Hhs|]. by intros ? [? ?].
Qed.

(** C4 (amended): [scheduleTokenRefresh()], when it is called on a stored
    token whose expiry claim decodes to [e] seconds, arms one timer with
    delay [e * 1000 - leadTime - now], i.e. due at [e * 1000 - leadTime]
    with [leadTime] = 600 s, if that delay is positive, and nothing
    otherwise; but no step of a refresh calls it or cancels a timer: the
    timers armed before and after a refresh are the same. *)
Theorem proactive_refresh (now : Z) (w : World) (tok : string) (e : Z) :
  truthy (getAccessToken w) = Some tok →
  decoded_exp tok = Num e →
  scheduleTokenRefresh now w =
    (if bool_decide (0 < e * 1000 - leadTime - now)
     then emit (SetTimeout (e * 1000 - leadTime - now)) w
     else w) ∧
  ∀ ev m m', step ev m = Some m' →
             count is_timer (effects (world m')) = count is_timer (effects (world m)).
Proof.
  intros Htok Hexp. split; [|intros ev m m'; apply step_no_timer].
  pose proof (truthy_inv _ _ Htok) as [_ Hne].
  unfold scheduleTokenRefresh. rewrite Htok.
  rewrite isTokenExpired_decoded by done.
  revert Hexp. unfold decoded_exp, parse_payload.
  case_bool_decide as Hloc; [by subst tok|].
  destruct (split_on "." tok) as [|a [|b [|c [|d l]]]]; simpl; try done.
  destruct (atob b) as [json|]; simpl; [|done].
  destruct (JSON_parse json) as [payload|]; simpl; [|done].
  destruct (get_prop payload "exp") as [v|]; simpl; [|done].
  intros ->. simpl. unfold num_gt, fiveMinutes, leadTime. simpl.
  repeat case_bool_decide; try done; try lia.
  do 2 f_equal. lia.
Qed.

End Proactive.

(** ** The session *)

Section Session.
Context `{Platform}.
Variable stringify_user : AuthContext.User → string.
Variable parse_user : string → option (option AuthContext.User).
Import Api AuthContext.

Local Abbreviation app_run := (app_run stringify_user parse_user).
Local Abbreviation app_step := (app_step stringify_user parse_user).
Local Abbreviation login_settle := (login_settle stringify_user).
Local Abbreviation signup_settle := (signup_settle stringify_user).

Lemma logout_storage (a : App) :
  storage (env (logout a)) = delete "auth_token" (delete "user_data" (storage (env a))).
Proof. done. Qed.

(** C5 (amended): [logout()] removes the access token and the serialized
    user profile and leaves every other key, the refresh token and the
    computed expiry among them, as it was; invoked twice in a row it
    yields the same store and the same session state as invoked once.
    [clearTokens()] is the operation that removes all four fields, and it
    is idempotent on the store as well. *)
Theorem logout_spec (a : App) :
  getItem "auth_token" (env (logout a)) = None ∧
  getItem "user_data" (env (logout a)) = None ∧
  (∀ k, k ≠ "auth_token" → k ≠ "user_data" →
        getItem k (env (logout a)) = getItem k (env a)) ∧
  storage (env (logout (logout a))) = storage (env (logout a)) ∧
  session (logout (logout a)) = session (logout a) ∧
  store_cleared (TokenManager.clearTokens (env a)) ∧
  storage (TokenManager.clearTokens (TokenManager.clearTokens (env a))) =
    storage (TokenManager.clearTokens (env a)).
Proof.
  unfold getItem. rewrite !logout_storage.
  split; [by simplify_map_eq|]. split; [by simplify_map_eq|].
  split; [intros k ? ?; by simplify_map_eq|].
  split.
  { apply map_eq. intros k.
    destruct (decide (k = "auth_token")) as [->|?]; [by simplify_map_eq|].
    destruct (decide (k = "user_data")) as [->|?]; by simplify_map_eq. }
  split; [done|]. split; [apply clearTokens_cleared|].
  rewrite !clearTokens_storage. apply map_eq. intros k.
  destruct (decide (k = "user_data")) as [->|?]; [by simplify_map_eq|].
  destruct (decide (k = "token_expires_at")) as [->|?]; [by simplify_map_eq|].
  destruct (decide (k = "refresh_token")) as [->|?]; [by simplify_map_eq|].
  destruct (decide (k = "auth_token")) as [->|?]; by simplify_map_eq.
Qed.

Lemma login_error_message_nonempty (e : ErrorObj) : login_error_message e ≠ EmptyString.
Proof.
  unfold login_error_message.
  destruct (_ || _); [done|].
  destruct (truthy (response e ≫= data_error)) as [msg|] eqn:Hd.
  { by apply truthy_inv in Hd as [_ ?]. }
  destruct (truthy (message e)) as [msg|] eqn:Hm; [|done].
  by apply truthy_inv in Hm as [_ ?].
Qed.

Lemma signup_error_message_nonempty (e : ErrorObj) : signup_error_message e ≠ EmptyString.
Proof.
  unfold signup_error_message.
  case_bool_decide; [done|]. destruct (_ || _); [done|]. case_bool_decide; [done|].
  destruct (truthy (response e ≫= data_error)) as [msg|] eqn:Hd.
  { by apply truthy_inv in Hd as [_ ?]. }
  destruct (truthy (message e)) as [msg|] eqn:Hm; [|done].
  by apply truthy_inv in Hm as [_ ?].
Qed.

(** The end of a failed attempt: only [error] and [loading] change. *)
Lemma attempt_settle_failed (msg_of : ErrorObj → string) (o : Outcome) (e : ErrorObj) (a : App) :
  caught o = Some e →
  attempt_settle stringify_user msg_of o a =
    (false, mkApp (mkAuthState (user (session a)) false (msg_of e)
                               (isInitialized (session a))) (manager a)).
Proof. destruct o; simpl; by intros [= <-]. Qed.

(** With no access token in the store, the request interceptor obtains
    [null] and changes nothing but the list of callers. *)
Lemma call_without_token (now : Z) (a : App) :
  getItem "auth_token" (env a) = None →
  app_step (Token (TokenManager.Call now)) a =
    Some (mkApp (session a) (TokenManager.add_caller (TokenManager.Returned None) (manager a))).
Proof.
  intros Htok. simpl. unfold TokenManager.getValidAccessToken_start.
  unfold TokenManager.getAccessToken. unfold env in Htok. by rewrite Htok.
Qed.

Lemma app_run_app (evs1 evs2 : list AppEvent) (a : App) :
  app_run (evs1 ++ evs2) a = app_run evs1 a ≫= app_run evs2.
Proof.
  revert a. induction evs1 as [|ev evs1 IH]; intros a; [done|].
  cbn [app AuthContext.app_run]. destruct (app_step ev a); simpl; [apply IH|done].
Qed.

(** The token manager runs beside the session and never touches it. *)
Lemma app_run_tokens (es : list TokenManager.Event) (a : App) :
  app_run (Token <$> es) a = mkApp (session a) <$> TokenManager.run es (manager a).
Proof.
  revert a. induction es as [|e es IH]; intros a; simpl; [by destruct a|].
  destruct (TokenManager.step e (manager a)) as [m1|]; simpl; [|done].
  by rewrite IH.
Qed.

(** What a call of [getValidAccessToken()] does to the world. *)
Lemma call_world (now : Z) (a : App) :
  let w' := TokenManager.world (TokenManager.getValidAccessToken_start now (manager a)) in
  (teardown (Token (TokenManager.Call now)) a = true ∧
   w' = TokenManager.clearTokens (env a)) ∨
  (teardown (Token (TokenManager.Call now)) a = false ∧
   (w' = env a ∨ ∃ rt, w' = emit (Fetch rt) (env a))).
Proof.
  cbn zeta. unfold teardown, TokenManager.getValidAccessToken_start, env.
  destruct (truthy _) as [tok|]; [|right; auto].
  case_bool_decide; [right; auto|].
  destruct (TokenManager.isTokenExpired _ _ _); simpl; [|right; auto].
  unfold TokenManager.refreshAccessToken_start.
  destruct (TokenManager.refreshPromise (manager a)); simpl; [right; auto|].
  destruct (truthy (TokenManager.getRefreshToken _)) as [rt|]; simpl.
  - right. split; [done|]. right. by exists rt.
  - left. done.
Qed.

(** What the response interceptor does to the answer of a failed
    attempt. *)
Lemma received_cases (o : Outcome) (e : ErrorObj) (w : World) :
  caught o = Some e →
  (is_401 e ∧
   received o w =
     mkWorld (delete "user_data" (delete "auth_token" (storage w)))
       (effects w ++ [RemoveItem "auth_token"; RemoveItem "user_data"; SetHref "/login"])) ∨
  (¬ is_401 e ∧ received o w = w).
Proof.
  destruct o as [tok ud|msg|e']; simpl; [done| |].
  - intros [= <-]. right. done.
  - intros [= ->]. destruct (decide (is_401 e)) as [He|He].
    + left. split; [done|]. by apply response_error_401.
    + right. split; [done|]. by apply response_error_other.
Qed.

(** A whole failed attempt, in closed form: the session gets the
    message, and the world is the one that the token manager and the
    response interceptor have left. *)
Lemma failed_attempt (begin : AppEvent) (settle : Outcome → AppEvent)
    (msg_of : ErrorObj → string) (now : Z) (tes : list TokenManager.Event)
    (o : Outcome) (e : ErrorObj) (a : App) (m1 : TokenManager.Manager) :
  app_step begin a = Some (attempt_begin a) →
  (∀ a, app_step (settle o) a = Some (snd (attempt_settle stringify_user msg_of o a))) →
  caught o = Some e →
  TokenManager.run (TokenManager.Call now :: tes) (manager a) = Some m1 →
  app_run (begin :: exchange now tes o ++ [settle o]) a =
    Some (mkApp (mkAuthState (user (session a)) false (msg_of e) (isInitialized (session a)))
            (TokenManager.mkManager (received o (TokenManager.world m1))
               (TokenManager.refreshPromise m1) (TokenManager.promises m1)
               (TokenManager.callers m1))).
Proof.
  intros Hbegin Hsettle Ho Hrun.
  cbn [app AuthContext.app_run]. rewrite Hbegin.
  unfold exchange. rewrite <- app_assoc, app_run_app, app_run_tokens.
  change (manager (attempt_begin a)) with (manager a). rewrite Hrun.
  cbn [fmap option_fmap option_map mbind option_bind].
  assert (Hend : ∀ a2, app_step (settle o) a2 =
    Some (mkApp (mkAuthState (user (session a2)) false (msg_of e) (isInitialized (session a2)))
            (manager a2))).
  { intros a2. rewrite Hsettle. by rewrite (attempt_settle_failed msg_of o e). }
  destruct o as [tok ud|msg|e']; [done| |].
  - cbn [app AuthContext.app_run received]. rewrite Hend. by destruct m1.
  - change ([ResponseError e'] ++ [settle (Rejected e')])
      with (ResponseError e' :: [settle (Rejected e')]).
    cbn [AuthContext.app_run AuthContext.app_step received]. by rewrite Hend.
Qed.

(** C9 (amended): a failed login or signup attempt — [login] or [signup]
    begins, the request passes the request interceptor, whose token
    manager is called at [now] and takes the steps [tes], the answer
    comes back, through the response interceptor if it is a rejection,
    and [login] or [signup] ends in its [catch] — always runs to its end
    and leaves the user and the initialisation flag as they were, so that
    the session is authenticated afterwards exactly if it was before;
    [loading] is false and [error] is the non-empty message.  The world
    at the end is the one that the token manager and the response
    interceptor have left: [login] and [signup] add nothing to it.
    - A rejection with status 401 adds to what the token manager left
      the removal of [auth_token], the removal of [user_data] and the
      assignment of [/login] to the location, so that neither field is
      stored at the end; any other failure adds nothing.
    - When the token manager returns at once ([tes] empty), its call
      removes all four fields if it is a teardown (token expired, no
      refresh under way, no refresh token), and otherwise leaves the
      world as it was or issues the refresh call.  So nothing is
      written: every stored value was there before and the log gains no
      [setItem]; without teardown and without 401 the store is
      unchanged, and so it is when neither [auth_token] nor [user_data]
      was stored.
    - In any state whatever, the failing end of [login] and [signup]
      leaves the store, the effect log and the user untouched. *)
Theorem failed_attempt_stores_nothing (now : Z) (tes : list TokenManager.Event)
    (o : Outcome) (e : ErrorObj) (a : App) (m1 : TokenManager.Manager) :
  caught o = Some e →
  TokenManager.run (TokenManager.Call now :: tes) (manager a) = Some m1 →
  let after := received o (TokenManager.world m1) in
  let ended (msg : string) (a' : App) :=
    user (session a') = user (session a) ∧
    isInitialized (session a') = isInitialized (session a) ∧
    loading (session a') = false ∧
    error (session a') = msg ∧
    msg ≠ EmptyString ∧
    session_state (session a') =
      (if isAuthenticated (session a) then Authenticated else Unauthenticated) ∧
    env a' = after in
  (∃ a', app_run (login_attempt now tes o) a = Some a' ∧
         ended (login_error_message e) a') ∧
  (∃ a', app_run (signup_attempt now tes o) a = Some a' ∧
         ended (signup_error_message e) a') ∧
  (is_401 e →
   getItem "auth_token" after = None ∧ getItem "user_data" after = None ∧
   effects after =
     effects (TokenManager.world m1)
     ++ [RemoveItem "auth_token"; RemoveItem "user_data"; SetHref "/login"]) ∧
  (¬ is_401 e → after = TokenManager.world m1) ∧
  (tes = [] →
   (teardown (Token (TokenManager.Call now)) a = true →
    TokenManager.world m1 = TokenManager.clearTokens (env a)) ∧
   (teardown (Token (TokenManager.Call now)) a = false →
    TokenManager.world m1 = env a ∨
    ∃ rt, TokenManager.world m1 = emit (Fetch rt) (env a)) ∧
   (∀ k v, storage after !! k = Some v → storage (env a) !! k = Some v) ∧
   (∃ l, effects after = effects (env a) ++ l ∧ Forall (λ x, is_write x = false) l) ∧
   (teardown (Token (TokenManager.Call now)) a = true → store_cleared after) ∧
   (teardown (Token (TokenManager.Call now)) a = false → ¬ is_401 e →
    storage after = storage (env a)) ∧
   (getItem "auth_token" (env a) = None → getItem "user_data" (env a) = None →
    storage after = storage (env a))) ∧
  (∀ b, login_settle o b = (false, snd (login_settle o b)) ∧
        env (snd (login_settle o b)) = env b ∧
        user (session (snd (login_settle o b))) = user (session b)) ∧
  (∀ b, signup_settle o b = (false, snd (signup_settle o b)) ∧
        env (snd (signup_settle o b)) = env b ∧
        user (session (snd (signup_settle o b))) = user (session b)).
Proof.
  intros Ho Hrun after ended.
  assert (Hended : ∀ msg_of, msg_of e ≠ EmptyString →
    ended (msg_of e)
      (mkApp (mkAuthState (user (session a)) false (msg_of e) (isInitialized (session a)))
         (TokenManager.mkManager after (TokenManager.refreshPromise m1)
            (TokenManager.promises m1) (TokenManager.callers m1)))).
  { intros msg_of Hne. unfold ended, session_state, isAuthenticated. simpl.
    repeat split; try done. by destruct (_ && _). }
  split; [|split; [|split; [|split; [|split; [|split]]]]].
  - eexists. split.
    + by apply (failed_attempt LoginBegin LoginSettle login_error_message now tes o e a m1).
    + apply (Hended login_error_message), login_error_message_nonempty.
  - eexists. split.
    + by apply (failed_attempt SignupBegin SignupSettle signup_error_message now tes o e a m1).
    + apply (Hended signup_error_message), signup_error_message_nonempty.
  - intros He. unfold after.
    destruct (received_cases o e (TokenManager.world m1) Ho) as [[_ ->]|[Hn _]]; [|done].
    unfold getItem. simpl. split; [by simplify_map_eq|]. split; [by simplify_map_eq|].
    done.
  - intros He. unfold after.
    by destruct (received_cases o e (TokenManager.world m1) Ho) as [[? _]|[_ ->]].
  - intros ->. simpl in Hrun. injection Hrun as <-. unfold after.
    set (w' := TokenManager.world _).
    assert (Hw' : (teardown (Token (TokenManager.Call now)) a = true ∧
                   w' = TokenManager.clearTokens (env a)) ∨
                  (teardown (Token (TokenManager.Call now)) a = false ∧
                   (w' = env a ∨ ∃ rt, w' = emit (Fetch rt) (env a))))
      by apply call_world.
    clearbody w'.
    assert (Hsub : ∀ k v, storage w' !! k = Some v → storage (env a) !! k = Some v).
    { intros k v. destruct Hw' as [[_ ->]|[_ [->|[rt ->]]]]; try done.
      rewrite clearTokens_storage. intros Hk.
      by repeat (apply lookup_delete_Some in Hk as [_ Hk]). }
    assert (Hlog : ∃ l, effects w' = effects (env a) ++ l ∧
                        Forall (λ x, is_write x = false) l).
    { destruct Hw' as [[_ ->]|[_ [->|[rt ->]]]].
      - rewrite clearTokens_effects. eexists. split; [done|]. by repeat constructor.
      - exists []. by rewrite app_nil_r.
      - exists [Fetch rt]. split; [done|]. by repeat constructor. }
    split; [by destruct Hw' as [[_ ?]|[? _]]; [|congruence]|].
    split; [by destruct Hw' as [[? _]|[_ ?]]; [congruence|]|].
    destruct (received_cases o e w' Ho) as [[He ->]|[He ->]]; cbn [storage effects].
    + split; [|split; [|split; [|split]]].
      * intros k v Hk. apply Hsub.
        by repeat (apply lookup_delete_Some in Hk as [_ Hk]).
      * destruct Hlog as (l & -> & Hl). eexists. rewrite <- app_assoc.
        split; [done|]. apply Forall_app. split; [done|]. by repeat constructor.
      * intros Htd. destruct Hw' as [[_ ->]|[Hq _]]; [|congruence].
        intros k Hk. cbn [storage].
        destruct (decide ("user_data" = k)) as [<-|?]; [by rewrite lookup_delete_eq|].
        rewrite lookup_delete_ne by done.
        destruct (decide ("auth_token" = k)) as [<-|?]; [by rewrite lookup_delete_eq|].
        rewrite lookup_delete_ne by done. by apply clearTokens_cleared.
      * done.
      * intros Htok Hud. unfold getItem in Htok, Hud.
        assert (storage w' = storage (env a)) as ->.
        { destruct Hw' as [[Htd _]|[_ [->|[rt ->]]]]; try done.
          unfold teardown, TokenManager.getAccessToken, getItem in Htd.
          by rewrite Htok in Htd. }
        rewrite (delete_id _ "auth_token") by done. by rewrite delete_id.
    + split; [done|]. split; [done|]. split; [|split].
      * intros Htd. destruct Hw' as [[_ ->]|[Hq _]]; [|congruence].
        apply clearTokens_cleared.
      * intros Htd _. by destruct Hw' as [[Hq _]|[_ [->|[rt ->]]]]; [congruence| |].
      * intros Htok _. unfold getItem in Htok.
        destruct Hw' as [[Htd _]|[_ [->|[rt ->]]]]; try done.
        unfold teardown, TokenManager.getAccessToken, getItem in Htd.
        by rewrite Htok in Htd.
  - intros b. unfold login_settle, AuthContext.login_settle.
    by rewrite (attempt_settle_failed _ o e).
  - intros b. unfold signup_settle, AuthContext.signup_settle.
    by rewrite (attempt_settle_failed _ o e).
Qed.

End Session.

(** ** The session invariant *)

Section Invariant.
Context `{Platform}.
Variable stringify_user : AuthContext.User → string.
Variable parse_user : string → option (option AuthContext.User).
Import TokenManager Spec Api AuthContext.

Local Abbreviation app_run := (app_run stringify_user parse_user).
Local Abbreviation app_step := (app_step stringify_user parse_user).
Local Abbreviation start := (start parse_user).
Local Abbreviation in_step := (in_step stringify_user parse_user).

(** Before the start-up check no session counts as authenticated. *)
Lemma token_invariant_fresh (a : App) :
  isInitialized (session a) = false → token_invariant a.
Proof.
  intros Hinit Hauth. unfold isAuthenticated in Hauth.
  by rewrite Hinit, andb_false_r in Hauth.
Qed.

Lemma start_fresh (st : gmap string string) (a0 : App) :
  start st = Some a0 → isInitialized (session a0) = false.
Proof.
  unfold start, AuthContext.start, mount. simpl.
  destruct (truthy _); [destruct (parse_user _)|]; by intros [= <-].
Qed.

Lemma reload_fresh (a a' : App) :
  app_step Reload a = Some a' → isInitialized (session a') = false.
Proof.
  simpl. unfold mount.
  destruct (truthy _); [destruct (parse_user _)|]; by intros [= <-].
Qed.

Lemma attempt_settle_invariant (msg_of : ErrorObj → string) (o : Outcome) (a : App) :
  token_invariant a → token_invariant (snd (attempt_settle stringify_user msg_of o a)).
Proof.
  intros Hinv. destruct o as [tok ud|msg|e]; simpl.
  - intros _. unfold getItem, env. simpl. split; eexists; by simplify_map_eq.
  - exact Hinv.
  - exact Hinv.
Qed.

Lemma attempt_settle_establishes (msg_of : ErrorObj → string) (token : option string)
    (ud : UserData) (a : App) :
  token_invariant (snd (attempt_settle stringify_user msg_of (Ok token ud) a)).
Proof. intros _. unfold getItem, env. simpl. split; eexists; by simplify_map_eq. Qed.

(** The start-up check keeps the user only if it finds both the token
    and the profile. *)
Lemma initializeAuth_invariant (a : App) : token_invariant (initializeAuth a).
Proof.
  intros Hauth. unfold initializeAuth, isAuthenticated in Hauth. simpl in Hauth.
  destruct (truthy (getItem "auth_token" (env a))) as [tok|] eqn:Htok; [|done].
  destruct (truthy (getItem "user_data" (env a))) as [ud|] eqn:Hud; [|done].
  apply truthy_inv in Htok as [Htok _]. apply truthy_inv in Hud as [Hud _].
  unfold initializeAuth, env in *. simpl. rewrite Htok, Hud. eauto.
Qed.

(** The interceptors and the token manager have no access to the React
    state. *)
Lemma background_session (ev : AppEvent) (a a' : App) :
  background ev → app_step ev a = Some a' → session a' = session a.
Proof.
  destruct ev as [| | | | | | |e|e]; try done; intros _; simpl.
  - by intros [= <-].
  - destruct (step e (manager a)); simpl; [|done]. by intros [= <-].
Qed.

Lemma token_invariant_frame (a a' : App) :
  session a' = session a →
  (∀ k, is_Some (getItem k (env a)) → k = "auth_token" ∨ k = "user_data" →
        is_Some (getItem k (env a'))) →
  token_invariant a → token_invariant a'.
Proof.
  intros Hs Hk Hinv Hauth. rewrite Hs in Hauth. destruct (Hinv Hauth) as [Ht Hu].
  split; apply Hk; auto.
Qed.

(** A step that is no teardown keeps the credentials of an
    authenticated session in the store. *)
Lemma token_invariant_step (ev : AppEvent) (a a' : App) :
  app_step ev a = Some a' → teardown ev a = false →
  token_invariant a → token_invariant a'.
Proof.
  intros Hstep Hq Hinv.
  destruct ev as [| | |o| |o| |e|e].
  - apply token_invariant_fresh. by eapply reload_fresh.
  - simpl in Hstep. injection Hstep as <-. apply initializeAuth_invariant.
  - simpl in Hstep. by injection Hstep as <-.
  - simpl in Hstep. injection Hstep as <-. by apply attempt_settle_invariant.
  - simpl in Hstep. by injection Hstep as <-.
  - simpl in Hstep. injection Hstep as <-. by apply attempt_settle_invariant.
  - simpl in Hstep. by injection Hstep as <-.
  - simpl in Hstep, Hq. injection Hstep as <-.
    apply bool_decide_eq_false in Hq. rewrite response_error_other by done.
    unfold with_env, env. by destruct a as [? []].
  - pose proof (background_session (Token e) a a' I Hstep) as Hs.
    eapply token_invariant_frame; [exact Hs| |exact Hinv].
    intros k Hk _. simpl in Hstep.
    destruct e as [now|p now r|i|i].
    + simpl in Hstep. injection Hstep as <-. unfold env at 1. simpl.
      destruct (call_world now a) as [[Htd _]|[_ Hw]]; [congruence|].
      destruct Hw as [->|[rt ->]]; done.
    + simpl in Hstep.
      destruct (promises (manager a) !! p) as [[rt|]|]; try done.
      destruct r as [| |[data|]]; try done.
      cbn -[setTokens] in Hstep. injection Hstep as <-.
      unfold env, getItem in *. simpl.
      destruct (decide (k = "token_expires_at")) as [->|?]; [by simplify_map_eq|].
      destruct (decide (k = "refresh_token")) as [->|?]; [by simplify_map_eq|].
      destruct (decide (k = "auth_token")) as [->|?]; by simplify_map_eq.
    + destruct (step (ResumeRefresh i) (manager a)) as [m1|] eqn:Hm; [|done].
      injection Hstep as <-.
      destruct (resume_frame (ResumeRefresh i) _ _ eq_refl Hm) as (Hst & _).
      unfold env, getItem in *. simpl. by rewrite Hst.
    + destruct (step (ResumeGet i) (manager a)) as [m1|] eqn:Hm; [|done].
      injection Hstep as <-.
      destruct (resume_frame (ResumeGet i) _ _ eq_refl Hm) as (Hst & _).
      unfold env, getItem in *. simpl. by rewrite Hst.
Qed.

(** A page load, the start-up check, a logout and a successful login or
    signup put the store and the session in step, whatever the state
    before. *)
Lemma establishes_step (ev : AppEvent) (a a' : App) :
  establishes ev = true → app_step ev a = Some a' → token_invariant a'.
Proof.
  intros Hev Hstep. destruct ev as [| | |o| |o| |e|e]; try done.
  - apply token_invariant_fresh. by eapply reload_fresh.
  - simpl in Hstep. injection Hstep as <-. apply initializeAuth_invariant.
  - destruct o as [token ud| |]; try done. simpl in Hstep. injection Hstep as <-.
    apply (attempt_settle_establishes login_error_message token ud a).
  - destruct o as [token ud| |]; try done. simpl in Hstep. injection Hstep as <-.
    apply (attempt_settle_establishes signup_error_message token ud a).
  - simpl in Hstep. by injection Hstep as <-.
Qed.

Lemma token_invariant_run (ok : bool) (evs : list AppEvent) (a a' : App) :
  app_run evs a = Some a' → in_step ok evs a = true →
  (ok = true → token_invariant a) → token_invariant a'.
Proof.
  revert ok a. induction evs as [|ev evs IH]; intros ok a; simpl.
  - intros [= ->] -> Hinv. by apply Hinv.
  - destruct (app_step ev a) as [a1|] eqn:Hstep; [|done].
    intros Hrun Hok Hinv. eapply IH; [exact Hrun|exact Hok|].
    destruct (teardown ev a) eqn:Htd; [done|].
    destruct (establishes ev) eqn:Hev.
    + intros _. by eapply establishes_step.
    + intros Hok'. eapply token_invariant_step; eauto.
Qed.

(** A teardown removes the access token and the profile and leaves the
    session as it is. *)
Lemma teardown_step (ev : AppEvent) (a a' : App) :
  app_step ev a = Some a' → teardown ev a = true →
  session a' = session a ∧
  getItem "auth_token" (env a') = None ∧ getItem "user_data" (env a') = None.
Proof.
  intros Hstep Htd.
  assert (Hclear : ∀ w, getItem "auth_token" (clearTokens w) = None ∧
                        getItem "user_data" (clearTokens w) = None).
  { intros w. unfold getItem.
    split; apply clearTokens_cleared; unfold credential_keys; set_solver. }
  destruct ev as [| | |o| |o| |e|e]; try done.
  - split; [by eapply (background_session (ResponseError e))|].
    simpl in Hstep, Htd. injection Hstep as <-. apply bool_decide_eq_true in Htd.
    unfold with_env, env, getItem. simpl. rewrite response_error_401 by done.
    simpl. split; by simplify_map_eq.
  - split; [by eapply (background_session (Token e))|].
    destruct e as [now|p now r|i|i]; try done.
    + simpl in Hstep. injection Hstep as <-.
      change (env {| session := session a;
                     manager := getValidAccessToken_start now (manager a) |})
        with (world (getValidAccessToken_start now (manager a))).
      destruct (call_world now a) as [[_ ->]|[Hq _]]; [|congruence]. apply Hclear.
    + simpl in Hstep.
      destruct (promises (manager a) !! p) as [[rt|]|]; try done.
      rewrite settle_failed in Hstep by (by destruct r as [| |[]]).
      injection Hstep as <-. apply Hclear.
Qed.

(** The page load that follows the loss of the profile ends
    unauthenticated. *)
Lemma page_load_without_profile (a : App) :
  getItem "user_data" (env a) = None →
  ∃ a'', app_run [Reload; InitializeAuth] a = Some a'' ∧
         session_state (session a'') = Unauthenticated.
Proof.
  intros Hud. cbn [AuthContext.app_run AuthContext.app_step]. unfold mount.
  rewrite Hud. simpl. eexists. split; [reflexivity|].
  unfold initializeAuth, session_state, isAuthenticated. simpl.
  destruct (truthy _); [destruct (truthy _)|]; done.
Qed.

(** C6 (amended): no invariant ties the session to the store in every
    reachable state.  In every state [a] reached from a page load by any
    events whatever (start-up check, login, signup, logout, page loads,
    calls and continuations of the token manager, answers of the refresh
    endpoint, rejected responses):
    - an authenticated session has [auth_token] and [user_data] in the
      store unless a teardown (a response rejected with 401, a failed
      refresh, a call that finds the token expired with no refresh under
      way and no refresh token) has taken place since the last page
      load, start-up check, logout or successful login or signup;
    - from [a], the interceptors and the token manager never change the
      session; a page load, the start-up check, a logout and a successful
      login or signup put the store in step with the session whatever
      [a] was; every step that is no teardown keeps it in step; a
      teardown removes [auth_token] and [user_data] and leaves the
      session as it is, authenticated if it was, until the page load that
      follows, after which it is unauthenticated;
    - [logout] leaves an unauthenticated session with neither
      [auth_token] nor [user_data];
    - each of the three teardowns can take place whenever its condition
      holds, and those of the token manager remove all four fields. *)
Theorem session_invariant (st : gmap string string) (a0 : App)
    (evs : list AppEvent) (a : App) :
  start st = Some a0 →
  app_run evs a0 = Some a →
  (in_step true evs a0 = true → token_invariant a) ∧
  (∀ ev a', app_step ev a = Some a' →
     (background ev → session a' = session a) ∧
     (establishes ev = true → token_invariant a') ∧
     (teardown ev a = false → token_invariant a → token_invariant a') ∧
     (teardown ev a = true →
      session a' = session a ∧
      getItem "auth_token" (env a') = None ∧ getItem "user_data" (env a') = None ∧
      ∃ a'', app_run [Reload; InitializeAuth] a' = Some a'' ∧
             session_state (session a'') = Unauthenticated)) ∧
  (isAuthenticated (session (logout a)) = false ∧
   getItem "auth_token" (env (logout a)) = None ∧
   getItem "user_data" (env (logout a)) = None) ∧
  (∀ e, is_401 e →
     teardown (ResponseError e) a = true ∧
     ∃ a', app_step (ResponseError e) a = Some a' ∧ session a' = session a ∧
           getItem "auth_token" (env a') = None ∧ getItem "user_data" (env a') = None ∧
           ∃ a'', app_run [Reload; InitializeAuth] a' = Some a'' ∧
                  session_state (session a'') = Unauthenticated) ∧
  (∀ p rt now r,
     promises (manager a) !! p = Some (Pending rt) →
     failed r →
     teardown (Token (Respond p now r)) a = true ∧
     ∃ a', app_step (Token (Respond p now r)) a = Some a' ∧
           session a' = session a ∧ store_cleared (env a')) ∧
  (∀ now tok,
     truthy (getAccessToken (env a)) = Some tok →
     isTokenExpired now (env a) (Some tok) = true →
     refreshPromise (manager a) = None →
     truthy (getRefreshToken (env a)) = None →
     teardown (Token (Call now)) a = true ∧
     ∃ a', app_step (Token (Call now)) a = Some a' ∧
           session a' = session a ∧ store_cleared (env a')).
Proof.
  intros Hstart Hrun.
  assert (Hpage : ∀ ev a', app_step ev a = Some a' → teardown ev a = true →
    session a' = session a ∧
    getItem "auth_token" (env a') = None ∧ getItem "user_data" (env a') = None ∧
    ∃ a'', app_run [Reload; InitializeAuth] a' = Some a'' ∧
           session_state (session a'') = Unauthenticated).
  { intros ev a' Hstep Htd.
    destruct (teardown_step ev a a' Hstep Htd) as (Hs & Ht & Hu).
    repeat split; try done. by apply page_load_without_profile. }
  split; [|split; [|split; [|split; [|split]]]].
  - intros Hq. eapply token_invariant_run; [exact Hrun|exact Hq|].
    intros _. apply token_invariant_fresh. by eapply start_fresh.
  - intros ev a' Hstep. split; [|split; [|split]].
    + intros Hev. by eapply background_session.
    + intros Hev. by eapply establishes_step.
    + intros Hq. by apply (token_invariant_step ev).
    + by apply Hpage.
  - unfold getItem. rewrite !logout_storage. repeat split; by simplify_map_eq.
  - intros e He.
    assert (Htd : teardown (ResponseError e) a = true)
      by (by apply bool_decide_eq_true).
    split; [done|]. eexists. split; [reflexivity|]. by apply (Hpage (ResponseError e)).
  - intros p rt now r Hp Hfail.
    assert (Htd : teardown (Token (Respond p now r)) a = true)
      by (by destruct r as [| |[]]).
    split; [done|]. simpl. rewrite Hp.
    rewrite settle_failed by done. simpl. eexists. split; [reflexivity|].
    split; [done|]. unfold env. simpl. apply clearTokens_cleared.
  - intros now tok Htok Hexp Hslot Hrt.
    assert (Htd : teardown (Token (Call now)) a = true).
    { unfold teardown. rewrite Htok, Hexp, Hslot, Hrt.
      case_bool_decide as Hloc; [subst tok; by rewrite isTokenExpired_local in Hexp|].
      done. }
    split; [done|]. eexists. split; [reflexivity|]. split; [done|].
    unfold env at 1. simpl.
    destruct (call_world now a) as [[_ ->]|[Hq _]]; [|congruence].
    apply clearTokens_cleared.
Qed.

End Invariant.

(** * Worked instances *)

Section Instances.
Import TokenManager Api AuthContext.

(** C1 at three callers and a successful renewal. *)
Lemma single_flight_witness :
  count is_fetch (effects (world Demo.after_three_calls)) = 1%nat ∧
  callers Demo.after_three_calls = replicate 3 (Returned (Some Demo.jwt_5000)) ∧
  refreshPromise Demo.after_three_calls = None.
Proof.
  destruct (@single_flight Browser.platform (new_manager Demo.expired_world)
              Demo.jwt_1000 "r1" 800000 [800000; 800001; 800002] 800500 Demo.renewal)
    as (_ & _ & Hany).
  - reflexivity.
  - constructor.
  - reflexivity.
  - vm_compute. reflexivity.
  - reflexivity.
  - discriminate.
  - repeat constructor; lia.
  - destruct (Hany Demo.three_resumes Demo.after_three_calls) as (Hone & _ & Hall & _).
    + repeat constructor.
    + vm_compute. reflexivity.
    + destruct Hall as [Hcs Hslot].
      * vm_compute. repeat constructor.
      * split; [exact Hone|]. split; [exact Hcs|exact Hslot].
Defined.

(** C3 at three rejections. *)
Lemma rejections_unguarded_witness :
  count (is_remove "auth_token")
    (effects (response_errors (replicate 3 Demo.rejection) Demo.expired_world)) = 3%nat ∧
  count is_href
    (effects (response_errors (replicate 3 Demo.rejection) Demo.expired_world)) = 3%nat.
Proof.
  destruct (rejections_unguarded (replicate 3 Demo.rejection) Demo.expired_world)
    as (_ & Hrm & Hhref & _).
  - repeat constructor.
  - split; [exact Hrm|exact Hhref].
Defined.

(** C3 as stated fails: three rejected responses clear the store three
    times and assign the location three times, not once. *)
Lemma rejections_counterexample :
  Forall is_401 (replicate 3 Demo.rejection) ∧
  ¬ (count (is_remove "auth_token")
       (effects (response_errors (replicate 3 Demo.rejection) Demo.expired_world)) = 1%nat ∧
     count is_href
       (effects (response_errors (replicate 3 Demo.rejection) Demo.expired_world)) = 1%nat).
Proof.
  split; [repeat constructor|].
  intros [Hrm _]. vm_compute in Hrm. discriminate.
Qed.

(** C4 at a token that expires at second 5000, scheduled at second 800:
    the timer is due 3600 s later, at second 4400. *)
Lemma proactive_refresh_witness :
  @scheduleTokenRefresh Browser.platform 800000 Demo.fresh_world =
    emit (SetTimeout 3600000) Demo.fresh_world.
Proof.
  exact (proj1 (@proactive_refresh Browser.platform 800000 Demo.fresh_world
                  Demo.jwt_5000 5000 eq_refl eq_refl)).
Defined.

(** C4 as stated fails: a successful refresh stores a token that expires
    at second 5000, and no timer has been armed for it. *)
Lemma proactive_refresh_counterexample :
  @run Browser.platform
    [Call 800000; Respond 0 800500 Demo.renewal; ResumeRefresh 0; ResumeGet 0]
    (new_manager Demo.expired_world) = Some Demo.after_renewal ∧
  callers Demo.after_renewal = [Returned (Some Demo.jwt_5000)] ∧
  getAccessToken (world Demo.after_renewal) = Some Demo.jwt_5000 ∧
  ¬ ∃ delay, SetTimeout delay ∈ effects (world Demo.after_renewal).
Proof.
  split; [by vm_compute|]. split; [by vm_compute|]. split; [by vm_compute|].
  intros [delay Hin]. vm_compute in Hin.
  repeat (apply elem_of_cons in Hin as [Hin|Hin]; [discriminate|]).
  by apply elem_of_nil in Hin.
Qed.

(** C5 as stated fails: after [logout()] the refresh token and the
    computed expiry are still in the store. *)
Lemma logout_counterexample :
  getItem "refresh_token" (env (logout Demo.full_session)) = Some "r1" ∧
  getItem "token_expires_at" (env (logout Demo.full_session)) = Some "5000000" ∧
  ¬ store_cleared (env (logout Demo.full_session)).
Proof.
  split; [by vm_compute|]. split; [by vm_compute|].
  intros Hclear. specialize (Hclear "refresh_token").
  assert (Hin : "refresh_token" ∈ credential_keys) by (unfold credential_keys; set_solver).
  specialize (Hclear Hin). vm_compute in Hclear. discriminate.
Qed.

(** C6 (amended) at a session over a stale store, a first request
    having started the refresh: the run had no teardown, so the token
    and the profile are stored; the refusal of the refresh endpoint then
    empties the store and leaves the session authenticated. *)
Lemma session_invariant_witness :
  session_state (session Demo.refreshing) = Authenticated ∧
  promises (manager Demo.refreshing) = [Pending "r1"] ∧
  token_invariant Demo.refreshing ∧
  ∃ a', @app_step Demo.stringify_user Demo.parse_user Browser.platform
          (Token (Respond 0 800500 (HttpError 401))) Demo.refreshing = Some a' ∧
        session a' = session Demo.refreshing ∧ store_cleared (env a').
Proof.
  destruct (@session_invariant Browser.platform Demo.stringify_user Demo.parse_user
              Demo.stale_store (Demo.app_from Demo.stale_store [])
              Demo.refreshing_events Demo.refreshing)
    as (Hinv & _ & _ & _ & Hfail & _).
  - vm_compute. reflexivity.
  - vm_compute. reflexivity.
  - split; [vm_compute; reflexivity|]. split; [vm_compute; reflexivity|].
    split; [apply Hinv; vm_compute; reflexivity|].
    destruct (Hfail 0%nat "r1" 800500 (HttpError 401)) as [_ Hex].
    + vm_compute. reflexivity.
    + exact I.
    + exact Hex.
Defined.

(** C6 as stated fails: log in, let one request be answered by 401; the
    session is still authenticated and the store holds no token.  No 401
    is needed either: over a session whose stored token has expired and
    has no refresh token, a login that the server fails to answer leaves
    the session authenticated and the store empty. *)
Lemma session_invariant_counterexample :
  start Demo.parse_user ∅
    ≫= @app_run Demo.stringify_user Demo.parse_user Browser.platform
         (InitializeAuth :: login_attempt 0 [] Demo.login_ok
          ++ [Token (Call 1); ResponseError Demo.rejection])
    = Some Demo.rejected_session ∧
  session_state (session Demo.rejected_session) = Authenticated ∧
  getItem "auth_token" (env Demo.rejected_session) = None ∧
  ¬ credential_invariant Demo.rejected_session ∧
  @app_run Demo.stringify_user Demo.parse_user Browser.platform
    Demo.outage_login Demo.orphan_session = Some Demo.orphan_rejected ∧
  session_state (session Demo.orphan_session) = Authenticated ∧
  session_state (session Demo.orphan_rejected) = Authenticated ∧
  storage (env Demo.orphan_rejected) = ∅ ∧
  ¬ credential_invariant Demo.orphan_rejected.
Proof.
  split; [by vm_compute|]. split; [by vm_compute|]. split; [by vm_compute|].
  split.
  { intros [Hauth _]. destruct Hauth as [tok Htok]; [by vm_compute|].
    vm_compute in Htok. discriminate. }
  split; [by vm_compute|]. split; [by vm_compute|]. split; [by vm_compute|].
  split; [by vm_compute|].
  intros [Hauth _]. destruct Hauth as [tok Htok]; [by vm_compute|].
  vm_compute in Htok. discriminate.
Qed.

(** C7 at one waiting caller and a refusal of the endpoint. *)
Lemma refresh_failure_terminal_witness :
  promises Demo.after_refusal !! 0%nat = Some (Settled false) ∧
  store_cleared (world Demo.after_refusal) ∧
  count is_fetch (effects (world Demo.after_refusal)) =
    count is_fetch (effects (world Demo.waiting)) ∧
  ∀ i o, (callers Demo.waiting !! i = Some (InRefresh 0) ∨
          callers Demo.waiting !! i = Some (InGet 0)) →
         callers Demo.after_refusal !! i = Some (Returned o) → o = None.
Proof.
  apply (@refresh_failure_terminal Browser.platform Demo.waiting 0 "r1" 800500
           (HttpError 401) [ResumeRefresh 0; ResumeGet 0] Demo.after_refusal).
  - reflexivity.
  - exact I.
  - repeat constructor.
  - vm_compute. reflexivity.
Defined.

(** C8 at one caller whose token has expired and is renewed. *)
Lemma getValidAccessToken_spec_witness :
  ∃ m', @run Browser.platform
          [Call 800000; Respond 0 800500 Demo.renewal; ResumeRefresh 0; ResumeGet 0]
          (new_manager Demo.expired_world) = Some m' ∧
        callers m' !! 0%nat = Some (Returned (Some Demo.jwt_5000)) ∧
        getAccessToken (world m') = Some Demo.jwt_5000 ∧
        (Spec.failed Demo.renewal ↔ Spec.renewed Demo.renewal = None).
Proof.
  exact (proj2 (proj1 (proj2 (proj2 (@getValidAccessToken_spec Browser.platform 800000
                  (new_manager Demo.expired_world))))
           Demo.jwt_1000 "r1" 800500 Demo.renewal eq_refl eq_refl eq_refl eq_refl)).
Defined.

(** C9 (amended) at a visitor whose login is rejected with status 401:
    the attempt ends unauthenticated with the message of the server, and
    the store, which held neither token nor profile, is what it was. *)
Lemma failed_attempt_stores_nothing_witness :
  ∃ a', @app_run Demo.stringify_user Demo.parse_user Browser.platform
          (login_attempt 800000 [] (Rejected Demo.rejection)) Demo.visitor = Some a' ∧
        session_state (session a') = Unauthenticated ∧
        error (session a') = "Invalid credentials" ∧
        storage (env a') = storage (env Demo.visitor).
Proof.
  destruct (@failed_attempt_stores_nothing Browser.platform Demo.stringify_user
              Demo.parse_user 800000 [] (Rejected Demo.rejection) Demo.rejection
              Demo.visitor (getValidAccessToken_start 800000 (manager Demo.visitor))
              eq_refl eq_refl)
    as ((a' & Hrun & _ & _ & _ & Herr & _ & Hstate & Henv) & _ & _ & _ & Hnow & _).
  exists a'. split; [exact Hrun|]. split; [exact Hstate|]. split; [exact Herr|].
  rewrite Henv. destruct (Hnow eq_refl) as (_ & _ & _ & _ & _ & _ & Hsame).
  apply Hsame; reflexivity.
Defined.

(** C9 as stated fails.  A login rejected with status 401 over an open
    session ends authenticated, not unauthenticated, and has removed the
    token and the profile from the store; and a visitor in whose store a
    token was left ends unauthenticated, but with that token removed. *)
Lemma failed_attempt_counterexample :
  caught (Rejected Demo.rejection) = Some Demo.rejection ∧
  (@app_run Demo.stringify_user Demo.parse_user Browser.platform
     (login_attempt 1 [] (Rejected Demo.rejection)) Demo.logged_in
     = Some Demo.relogin_rejected ∧
   getItem "auth_token" (env Demo.logged_in) = Some "t1" ∧
   getItem "auth_token" (env Demo.relogin_rejected) = None ∧
   getItem "user_data" (env Demo.relogin_rejected) = None ∧
   error (session Demo.relogin_rejected) = "Invalid credentials" ∧
   session_state (session Demo.relogin_rejected) = Authenticated ∧
   session_state (session Demo.relogin_rejected) ≠ Unauthenticated ∧
   storage (env Demo.relogin_rejected) ≠ storage (env Demo.logged_in)) ∧
  (@app_run Demo.stringify_user Demo.parse_user Browser.platform
     (login_attempt 1 [] (Rejected Demo.rejection)) Demo.leftover
     = Some Demo.leftover_rejected ∧
   session_state (session Demo.leftover) = Unauthenticated ∧
   session_state (session Demo.leftover_rejected) = Unauthenticated ∧
   getItem "auth_token" (env Demo.leftover) = Some "t0" ∧
   getItem "auth_token" (env Demo.leftover_rejected) = None ∧
   storage (env Demo.leftover_rejected) ≠ storage (env Demo.leftover)).
Proof.
  split; [done|]. split.
  - split; [by vm_compute|]. split; [by vm_compute|]. split; [by vm_compute|].
    split; [by vm_compute|]. split; [by vm_compute|]. split; [by vm_compute|].
    split; [by vm_compute|].
    intros Heq. apply (f_equal (λ st : gmap string string, st !! "auth_token")) in Heq.
    vm_compute in Heq. discriminate.
  - split; [by vm_compute|]. split; [by vm_compute|]. split; [by vm_compute|].
    split; [by vm_compute|]. split; [by vm_compute|].
    intros Heq. apply (f_equal (λ st : gmap string string, st !! "auth_token")) in Heq.
    vm_compute in Heq. discriminate.
Qed.

(** C10 at an expired token without refresh token. *)
Lemma expired_without_refresh_token_witness :
  ∃ m', @run Browser.platform [Call 800000; ResumeGet 0] (new_manager Demo.orphan_world)
          = Some m' ∧
        callers m' !! 0%nat = Some (Returned None) ∧
        store_cleared (world m') ∧
        effects (world m') =
          [RemoveItem "auth_token"; RemoveItem "refresh_token";
           RemoveItem "token_expires_at"; RemoveItem "user_data"; SetHref "/"] ∧
        count is_fetch (effects (world m')) = 0%nat.
Proof.
  exact (@expired_without_refresh_token Browser.platform 800000
           (new_manager Demo.orphan_world) Demo.jwt_1000 eq_refl eq_refl eq_refl eq_refl).
Defined.

End Instances.

(** * Further properties *)

(** ** Expiry and scheduling *)

Section ExpiryMore.
Context `{Platform}.
Import TokenManager Spec.

(** The token argument defaults to the stored access token. *)
Lemma isTokenExpired_default (now : Z) (w : World) (token : option string) :
  isTokenExpired now w token =
    match truthy (or_else token (getAccessToken w)) with
    | None => true
    | Some tok => isTokenExpired now w (Some tok)
    end.
Proof.
  destruct (truthy (or_else token (getAccessToken w))) as [tok|] eqn:Htok.
  - pose proof (truthy_inv _ _ Htok) as [_ Hne].
    unfold isTokenExpired at 2. rewrite or_else_Some, truthy_Some by done.
    unfold isTokenExpired. by rewrite Htok.
  - unfold isTokenExpired. by rewrite Htok.
Qed.

(** X1: expiry is monotone in time.  Whatever the token argument (given
    or defaulted to the stored one), a token that [isTokenExpired] reports
    expired at [t0] is reported expired at every later time. *)
Theorem expiry_monotone (t0 t : Z) (w : World) (token : option string) :
  t0 ≤ t →
  isTokenExpired t0 w token = true →
  isTokenExpired t w token = true.
Proof.
  intros Hle. rewrite !isTokenExpired_default.
  destruct (truthy (or_else token (getAccessToken w))) as [tok|] eqn:Htok; [|done].
  apply truthy_inv in Htok as [_ Hne]. by apply isTokenExpired_mono.
Qed.

(** [scheduleTokenRefresh] either does nothing or arms one timer, whose
    delay comes from the decoded expiry. *)
Lemma schedule_cases (now : Z) (w : World) :
  scheduleTokenRefresh now w = w ∨
  ∃ tok e, truthy (getAccessToken w) = Some tok ∧ decoded_exp tok = Num e ∧
           0 < e * 1000 - now - leadTime ∧
           scheduleTokenRefresh now w = emit (SetTimeout (e * 1000 - now - leadTime)) w.
Proof.
  unfold scheduleTokenRefresh.
  destruct (truthy (getAccessToken w)) as [tok|] eqn:Htok; [|by left].
  pose proof (truthy_inv _ _ Htok) as [_ Hne].
  destruct (isTokenExpired now w (Some tok)); [by left|].
  case_bool_decide as Hloc; [by left|].
  case_bool_decide as Hparts; [by left|].
  destruct (parse_payload (split_on "." tok)) as [payload|] eqn:Hpay; [|by left].
  destruct (get_prop payload "exp") as [v|] eqn:Hexp; [|by left].
  destruct (ToNumber v) as [|e] eqn:Hnum; simpl; [by left|].
  unfold num_gt. simpl. case_bool_decide as Hpos; [|by left].
  right. exists tok, e. split; [done|]. split; [|split; [unfold leadTime; lia|done]].
  unfold decoded_exp. unfold parse_payload in Hpay.
  destruct (split_on "." tok) as [|a [|b [|c [|d l]]]]; simpl in *; try done.
  destruct (atob b) as [json|]; simpl in *; [|done].
  rewrite Hpay. simpl. by rewrite Hexp.
Qed.

(** X2: the expiry check reads nothing but the access token.  Two worlds
    that store the same access token get the same answer from
    [isTokenExpired] and the same timer, if any, from
    [scheduleTokenRefresh]: the [token_expires_at] that [setTokens]
    computes and stores is never consulted. *)
Theorem expiry_reads_only_the_token (now : Z) (w w' : World) (token : option string) :
  getAccessToken w = getAccessToken w' →
  isTokenExpired now w token = isTokenExpired now w' token ∧
  ∃ armed, effects (scheduleTokenRefresh now w) = effects w ++ armed ∧
           effects (scheduleTokenRefresh now w') = effects w' ++ armed.
Proof.
  intros Heq. split.
  - rewrite !isTokenExpired_default, <- Heq.
    destruct (truthy (or_else token (getAccessToken w))) as [tok|] eqn:Htok; [|done].
    apply truthy_inv in Htok as [_ Hne]. by apply isTokenExpired_world.
  - unfold scheduleTokenRefresh. rewrite <- Heq.
    destruct (truthy (getAccessToken w)) as [tok|] eqn:Htok;
      [|exists []; by rewrite !app_nil_r].
    pose proof (truthy_inv _ _ Htok) as [_ Hne].
    rewrite <- (isTokenExpired_world now w w') by done.
    destruct (isTokenExpired now w (Some tok)); [exists []; by rewrite !app_nil_r|].
    case_bool_decide; [exists []; by rewrite !app_nil_r|].
    case_bool_decide; [exists []; by rewrite !app_nil_r|].
    destruct (parse_payload (split_on "." tok)) as [payload|];
      [|exists []; by rewrite !app_nil_r].
    destruct (get_prop payload "exp") as [v|]; [|exists []; by rewrite !app_nil_r].
    cbv zeta.
    destruct (num_gt _ _); [|exists []; by rewrite !app_nil_r].
    destruct (num_sub _ _) as [|d]; [exists []; by rewrite !app_nil_r|].
    by exists [SetTimeout d].
Qed.

(** X4: [scheduleTokenRefresh] never writes to the store and arms at
    most one timer.  When it arms one, the delay is positive, the stored
    token is not reported expired now nor when the timer is due, and
    [isTokenExpired] turns true exactly [leadTime - skew] (300 s) after
    the timer is due. *)
Theorem schedule_is_safe (now : Z) (w : World) :
  storage (scheduleTokenRefresh now w) = storage w ∧
  (effects (scheduleTokenRefresh now w) = effects w ∨
   ∃ tok delay,
     truthy (getAccessToken w) = Some tok ∧
     effects (scheduleTokenRefresh now w) = effects w ++ [SetTimeout delay] ∧
     0 < delay ∧
     ∀ t, isTokenExpired t w (Some tok) = true ↔ now + delay + (leadTime - skew) < t).
Proof.
  destruct (schedule_cases now w) as [->|(tok & e & Htok & Hexp & Hpos & ->)].
  - split; [done|by left].
  - split; [done|]. right. exists tok, (e * 1000 - now - leadTime).
    split; [done|]. split; [done|]. split; [done|].
    intros t. pose proof (truthy_inv _ _ Htok) as [_ Hne].
    rewrite isTokenExpired_decoded, Hexp by done. simpl.
    rewrite bool_decide_eq_true. unfold fiveMinutes, leadTime, skew. lia.
Qed.

End ExpiryMore.

(** ** Storing and reading tokens *)

Section StoreMore.
Import TokenManager Spec.

Lemma setTokens_reads (now : Z) (td : TokenData) (w : World) :
  getAccessToken (setTokens now td w) = Some (access_token td) ∧
  getRefreshToken (setTokens now td w) = Some (refresh_token td) ∧
  getItem "token_expires_at" (setTokens now td w) =
    Some (pretty (now + expires_at td * 1000)) ∧
  (∀ k, k ≠ "auth_token" → k ≠ "refresh_token" → k ≠ "token_expires_at" →
        getItem k (setTokens now td w) = getItem k w).
Proof.
  unfold getAccessToken, getRefreshToken, getItem, setTokens, setItem. simpl.
  split; [by simplify_map_eq|]. split; [by simplify_map_eq|].
  split; [by simplify_map_eq|]. intros k ? ? ?; by simplify_map_eq.
Qed.

(** X3: what [setTokens] writes is what the getters read back, the
    expiry being [now + expires_at * 1000] in decimal; every other key,
    the user profile among them, is left alone; and [clearTokens] after
    [setTokens] leaves none of the four fields. *)
Theorem setTokens_roundtrip (now : Z) (td : TokenData) (w : World) :
  getAccessToken (setTokens now td w) = Some (access_token td) ∧
  getRefreshToken (setTokens now td w) = Some (refresh_token td) ∧
  getItem "token_expires_at" (setTokens now td w) =
    Some (pretty (now + expires_at td * 1000)) ∧
  (∀ k, k ≠ "auth_token" → k ≠ "refresh_token" → k ≠ "token_expires_at" →
        getItem k (setTokens now td w) = getItem k w) ∧
  store_cleared (clearTokens (setTokens now td w)).
Proof.
  destruct (setTokens_reads now td w) as (Ha & Hr & He & Hk).
  repeat split; try done. apply clearTokens_cleared.
Qed.

(** X9: a successful refresh.  The access token of the answer is stored
    (the text [undefined] if the answer has none); the refresh token is
    replaced only by a non-empty one, otherwise the one that was sent is
    kept; a missing or zero [expires_in] counts as 3600 s; the user
    profile is not touched; nothing is removed. *)
Theorem refresh_success (now : Z) (data : RefreshBody) (rt : string) (w : World) :
  let w' := snd (performTokenRefresh_settle now (HttpOk (Some data)) rt w) in
  fst (performTokenRefresh_settle now (HttpOk (Some data)) rt w) = true ∧
  getAccessToken w' = Some (to_stored (body_access_token data)) ∧
  getRefreshToken w' = Some (default rt (truthy (body_refresh_token data))) ∧
  getItem "token_expires_at" w' =
    Some (pretty (now + 1000 * match body_expires_in data with
                                | Some 0 | None => 3600
                                | Some n => n
                                end)) ∧
  getItem "user_data" w' = getItem "user_data" w ∧
  count (λ e, match e with RemoveItem _ => true | _ => false end) (effects w') =
    count (λ e, match e with RemoveItem _ => true | _ => false end) (effects w).
Proof.
  cbn -[setTokens]. split; [done|].
  destruct (setTokens_reads now
    {| access_token := to_stored (body_access_token data);
       refresh_token := match truthy (body_refresh_token data) with
                        | Some t => t | None => rt end;
       expires_at := match body_expires_in data with
                     | Some n => if bool_decide (n = 0) then 3600 else n
                     | None => 3600 end |} w) as (Ha & Hr & He & Hk).
  rewrite Ha, Hr, He, Hk by done. cbn [access_token refresh_token expires_at].
  split; [done|]. split; [by destruct (truthy (body_refresh_token data))|].
  split.
  { do 3 f_equal. destruct (body_expires_in data) as [n|]; [|lia].
    case_bool_decide; [subst; lia|]. destruct n; try done; lia. }
  split; [done|]. rewrite setTokens_effects. count_log.
Qed.

End StoreMore.

(** ** Coherence of the token manager *)

Section CoherenceProofs.
Context `{Platform}.
Import TokenManager Spec Coherence.

(** The four ways in which a call of [getValidAccessToken()] begins. *)
Lemma call_cases (now : Z) (m : Manager) :
  (∃ r, getValidAccessToken_start now m = add_caller (Returned r) m) ∨
  (∃ p, refreshPromise m = Some p ∧
        getValidAccessToken_start now m = add_caller (InGet p) m) ∨
  (refreshPromise m = None ∧
   getValidAccessToken_start now m =
     mkManager (clearTokens (world m)) None (promises m)
               (callers m ++ [InGetVal false])) ∨
  (refreshPromise m = None ∧
   ∃ rt, getValidAccessToken_start now m =
     mkManager (emit (Fetch rt) (world m)) (Some (length (promises m)))
               (promises m ++ [Pending rt])
               (callers m ++ [InRefresh (length (promises m))])).
Proof.
  unfold getValidAccessToken_start.
  destruct (truthy (getAccessToken (world m))) as [tok|]; [|left; eauto].
  case_bool_decide; [left; eauto|].
  destruct (isTokenExpired now (world m) (Some tok)); simpl; [|left; eauto].
  unfold refreshAccessToken_start.
  destruct (refreshPromise m) as [p|] eqn:Hslot; [right; left; eauto|].
  destruct (truthy (getRefreshToken (world m))) as [rt|].
  - right; right; right. split; [done|]. by exists rt.
  - right; right; left. done.
Qed.

Lemma coherent_new (w : World) :
  coherent (count is_fetch (effects w)) (new_manager w).
Proof. split; simpl; try done; try lia; try (by intros ? ? [?|?]). Qed.

Lemma coherent_add (n0 : nat) (m : Manager) (c : Caller) :
  coherent n0 m →
  (∀ q, c ≠ InRefresh q) →
  (∀ q, c = InGet q → is_Some (promises m !! q)) →
  coherent n0 (add_caller c m).
Proof.
  intros [Ha Hb Hc Hd He] Hc1 Hc2. split; simpl; try done.
  - intros i q Hi. apply lookup_snoc_Some in Hi as [[_ Hi]|[_ Hi]]; [|by destruct (Hc1 q)].
    destruct (Hb i q Hi) as [Hs Hu]. split; [done|].
    intros j q' Hj. apply lookup_snoc_Some in Hj as [[_ Hj]|[_ Hj]]; [eauto|].
    by destruct (Hc1 q').
  - intros p Hp. destruct (Hc p Hp) as [i Hi]. exists i.
    apply lookup_snoc_Some. left. split; [by eapply lookup_lt_Some|done].
  - intros i q [Hi|Hi]; apply lookup_snoc_Some in Hi as [[_ Hi]|[_ Hi]]; eauto.
    by destruct (Hc1 q).
Qed.

Lemma coherent_world (n0 : nat) (m : Manager) (w : World) :
  coherent n0 m →
  count is_fetch (effects w) = count is_fetch (effects (world m)) →
  coherent n0 (mkManager w (refreshPromise m) (promises m) (callers m)).
Proof. intros [Ha Hb Hc Hd He] Hw. split; simpl; try done. by rewrite Hw. Qed.

Lemma coherent_set (n0 : nat) (m : Manager) (i : nat) (c0 c : Caller) :
  coherent n0 m →
  callers m !! i = Some c0 → (∀ q, c0 ≠ InRefresh q) →
  (∀ q, c ≠ InRefresh q) → (∀ q, c ≠ InGet q) →
  coherent n0 (set_caller i c m).
Proof.
  intros [Ha Hb Hc Hd He] Hi Hc0 Hc1 Hc2. split; simpl; try done.
  - intros j q Hj. apply list_lookup_insert_Some in Hj as [(_ & ? & _)|[Hne Hj]];
      [by destruct (Hc1 q)|].
    destruct (Hb j q Hj) as [Hs Hu]. split; [done|].
    intros k q' Hk. apply list_lookup_insert_Some in Hk as [(_ & ? & _)|[_ Hk]];
      [by destruct (Hc1 q')|eauto].
  - intros p Hp. destruct (Hc p Hp) as [j Hj]. exists j.
    rewrite list_lookup_insert_ne; [done|]. intros <-. rewrite Hi in Hj.
    injection Hj as ->. by destruct (Hc0 p).
  - intros j q [Hj|Hj];
      apply list_lookup_insert_Some in Hj as [(_ & ? & _)|[_ Hj]]; eauto.
    + by destruct (Hc1 q).
    + by destruct (Hc2 q).
Qed.

Lemma coherent_step (n0 : nat) (e : Event) (m m' : Manager) :
  step e m = Some m' → coherent n0 m → coherent n0 m'.
Proof.
  intros Hstep Hinv. destruct e as [now|p now r|i|i]; simpl in Hstep.
  - (* Call *)
    injection Hstep as <-.
    destruct (call_cases now m) as [[r ->]|[(p & Hslot & ->)|[[Hslot ->]|(Hslot & rt & ->)]]].
    + apply coherent_add; [done|done|done].
    + apply coherent_add; [done|done|].
      intros q [= <-]. destruct Hinv as [_ _ Hc Hd _].
      destruct (Hc p Hslot) as [i Hi]. eauto.
    + replace (mkManager (clearTokens (world m)) None (promises m)
                 (callers m ++ [InGetVal false]))
        with (add_caller (InGetVal false)
                (mkManager (clearTokens (world m)) (refreshPromise m) (promises m)
                           (callers m)))
        by (unfold add_caller; simpl; by rewrite Hslot).
      apply coherent_add; [|done|done].
      apply coherent_world; [done|]. rewrite clearTokens_effects. count_log.
    + destruct Hinv as [Ha Hb Hc Hd He].
      assert (Hnone : ∀ i q, callers m !! i ≠ Some (InRefresh q)).
      { intros i q Hi. destruct (Hb i q Hi) as [Hs _]. congruence. }
      split; simpl.
      * intros p rt' Hp. apply lookup_snoc_Some in Hp as [[_ Hp]|[-> _]]; [|done].
        specialize (Ha p rt' Hp). congruence.
      * intros i q Hi. apply lookup_snoc_Some in Hi as [[_ Hi]|[-> [= <-]]];
          [by destruct (Hnone i q)|].
        split; [done|]. intros j q' Hj.
        apply lookup_snoc_Some in Hj as [[_ Hj]|[-> _]]; [by destruct (Hnone j q')|done].
      * intros p [= <-]. exists (length (callers m)). apply lookup_snoc.
      * intros i q [Hi|Hi]; apply lookup_snoc_Some in Hi as [[_ Hi]|[_ Hi]].
        -- by destruct (Hnone i q).
        -- injection Hi as <-. rewrite lookup_snoc. eauto.
        -- destruct (Hd i q (or_intror Hi)) as [s Hs].
           exists s. apply lookup_app_l_Some. done.
        -- done.
      * rewrite count_app, length_app, He, count_cons, count_nil. cbn. lia.
  - (* Respond *)
    destruct (promises m !! p) as [[rt|]|] eqn:Hp; try done.
    destruct (settle_effects now r rt (world m)) as (l & Hl & Hlf).
    destruct (performTokenRefresh_settle now r rt (world m)) as [b w2].
    injection Hstep as <-. simpl in Hl.
    destruct Hinv as [Ha Hb Hc Hd He]. split; simpl; try done.
    + intros p' rt' Hp'.
      apply list_lookup_insert_Some in Hp' as [(_ & ? & _)|[_ Hp']]; [done|eauto].
    + intros i q Hi. destruct (Hd i q Hi) as [s Hs].
      destruct (decide (p = q)) as [->|Hne].
      * rewrite list_lookup_insert_eq by (by eapply lookup_lt_Some). eauto.
      * rewrite list_lookup_insert_ne by done. eauto.
    + rewrite Hl, count_app, length_insert, He.
      rewrite (count_none is_fetch l); [lia|].
      eapply Forall_impl; [exact Hlf|]. by intros ? [? ?].
  - (* ResumeRefresh *)
    destruct (callers m !! i) as [[q| | |]|] eqn:Hi; try done.
    destruct (promises m !! q) as [[|b]|] eqn:Hq; try done.
    injection Hstep as <-.
    destruct Hinv as [Ha Hb Hc Hd He].
    destruct (Hb i q Hi) as [Hslot Huniq].
    split; simpl; try done.
    + intros p rt Hp. specialize (Ha p rt Hp). rewrite Hslot in Ha.
      injection Ha as <-. congruence.
    + intros j q' Hj.
      apply list_lookup_insert_Some in Hj as [(_ & ? & _)|[Hne Hj]]; [done|].
      by destruct Hne; rewrite (Huniq j q' Hj).
    + intros j q' [Hj|Hj];
        apply list_lookup_insert_Some in Hj as [(_ & ? & _)|[_ Hj]]; try done; eauto.
  - (* ResumeGet *)
    assert (Hres : ∃ b c0, getValidAccessToken_resume i b m = m' ∧
                           callers m !! i = Some c0 ∧ ∀ q, c0 ≠ InRefresh q).
    { destruct (callers m !! i) as [[q|q|b|]|] eqn:Hi; try done.
      - destruct (promises m !! q) as [[|b]|]; try done.
        injection Hstep as <-. eauto.
      - injection Hstep as <-. eauto. }
    destruct Hres as (b & c0 & <- & Hi & Hc0).
    unfold getValidAccessToken_resume. destruct b.
    + eapply coherent_set; eauto.
    + eapply (coherent_set n0
        (mkManager (set_href "/" (world m)) (refreshPromise m) (promises m) (callers m)));
        eauto.
      apply coherent_world; [done|]. unfold set_href, emit. simpl. count_log.
Qed.

Lemma coherent_run (n0 : nat) (es : list Event) (m m' : Manager) :
  run es m = Some m' → coherent n0 m → coherent n0 m'.
Proof.
  revert m. induction es as [|e es IH]; intros m; simpl.
  - by intros [= ->].
  - destruct (step e m) as [m1|] eqn:Hstep; [|done].
    intros Hrun Hinv. eapply IH; [done|]. by eapply coherent_step.
Qed.

(** X5: at most one refresh is in flight, whatever happens.  After any
    sequence of calls, answers and continuations on a fresh manager, two
    pending refresh promises are the same promise, that promise is the one
    in the slot, and the refresh calls issued so far are as many as the
    promises created. *)
Theorem at_most_one_in_flight (w : World) (es : list Event) (m : Manager) :
  run es (new_manager w) = Some m →
  (∀ p p' rt rt', promises m !! p = Some (Pending rt) →
                  promises m !! p' = Some (Pending rt') → p = p') ∧
  (∀ p rt, promises m !! p = Some (Pending rt) → refreshPromise m = Some p) ∧
  count is_fetch (effects (world m)) =
    (count is_fetch (effects w) + length (promises m))%nat.
Proof.
  intros Hrun.
  destruct (coherent_run _ es _ m Hrun (coherent_new w)) as [Ha _ _ _ He].
  split; [|split; [exact Ha|exact He]].
  intros p p' rt rt' Hp Hp'.
  pose proof (Ha p rt Hp) as H1. pose proof (Ha p' rt' Hp') as H2. congruence.
Qed.

(** X6: no call is ever stuck.  After any sequence of events on a fresh
    manager, a call that has not returned either can take its next step
    now, or waits for a refresh that is still pending, which the answer
    of the endpoint, whatever it is, will settle; and an occupied slot
    always has such a refresh or an owner ready to release it. *)
Theorem no_call_is_stuck (w : World) (es : list Event) (m : Manager) :
  run es (new_manager w) = Some m →
  (∀ i c, callers m !! i = Some c → is_returned c = false →
     can_resume i m ∨
     ∃ p rt, promises m !! p = Some (Pending rt) ∧
             ∀ now r, is_Some (step (Respond p now r) m)) ∧
  (∀ p, refreshPromise m = Some p →
     (∃ rt, promises m !! p = Some (Pending rt)) ∨
     (∃ i, callers m !! i = Some (InRefresh p) ∧ is_Some (step (ResumeRefresh i) m))).
Proof.
  intros Hrun.
  destruct (coherent_run _ es _ m Hrun (coherent_new w)) as [Ha Hb Hc Hd He].
  assert (Hpend : ∀ p rt now r, promises m !! p = Some (Pending rt) →
                                is_Some (step (Respond p now r) m)).
  { intros p rt now r Hp. simpl. rewrite Hp.
    destruct (performTokenRefresh_settle now r rt (world m)). eauto. }
  split.
  - intros i c Hi Hc0. unfold can_resume.
    destruct c as [q|q|b|r]; [| | |done].
    + destruct (Hd i q (or_introl Hi)) as [[rt|b] Hq].
      * right. exists q, rt. eauto.
      * left. left. simpl. rewrite Hi, Hq. eauto.
    + destruct (Hd i q (or_intror Hi)) as [[rt|b] Hq].
      * right. exists q, rt. eauto.
      * left. right. simpl. rewrite Hi, Hq. eauto.
    + left. right. simpl. rewrite Hi. eauto.
  - intros p Hp. destruct (Hc p Hp) as [i Hi].
    destruct (Hd i p (or_introl Hi)) as [[rt|b] Hq]; [left; eauto|].
    right. exists i. split; [done|]. simpl. rewrite Hi, Hq. eauto.
Qed.

End CoherenceProofs.

(** ** Tokens handed out, tokens left behind *)

Section Handout.
Context `{Platform}.
Variable stringify_user : AuthContext.User → string.
Variable parse_user : string → option (option AuthContext.User).
Import TokenManager Spec Api AuthContext.

Local Abbreviation app_run := (app_run stringify_user parse_user).

Lemma returned_is_stored (e : Event) (m m' : Manager) (i : nat) (t : string) :
  step e m = Some m' →
  callers m' !! i = Some (Returned (Some t)) →
  callers m !! i ≠ Some (Returned (Some t)) →
  getAccessToken (world m') = Some t.
Proof.
  intros Hstep Hi' Hi.
  assert (Hget : ∀ j b, getValidAccessToken_resume j b m = m' →
                        getAccessToken (world m') = Some t).
  { intros j b <-. unfold getValidAccessToken_resume in Hi' |- *.
    destruct b; simpl in *;
      apply list_lookup_insert_Some in Hi' as [(_ & Heq & _)|[_ Hi']]; try done.
    by injection Heq as ->. }
  destruct e as [now|p now r|j|j]; simpl in Hstep.
  - injection Hstep as <-. unfold getValidAccessToken_start in *.
    destruct (truthy (getAccessToken (world m))) as [tok|] eqn:Htok.
    + apply truthy_inv in Htok as [Htok _].
      assert (Himm : callers (add_caller (Returned (Some tok)) m) !! i
                       = Some (Returned (Some t)) →
                     getAccessToken (world (add_caller (Returned (Some tok)) m)) = Some t).
      { simpl. intros Hl. apply lookup_snoc_Some in Hl as [[_ Hl]|[_ Hl]]; [done|].
        by injection Hl as <-. }
      case_bool_decide; [by apply Himm|].
      destruct (isTokenExpired now (world m) (Some tok)); simpl in *; [|by apply Himm].
      unfold refreshAccessToken_start in *.
      destruct (refreshPromise m).
      { simpl in Hi'. apply lookup_snoc_Some in Hi' as [[_ Hl]|[_ Hl]]; done. }
      destruct (truthy (getRefreshToken (world m))); simpl in Hi';
        apply lookup_snoc_Some in Hi' as [[_ Hl]|[_ Hl]]; done.
    + simpl in Hi'. apply lookup_snoc_Some in Hi' as [[_ Hl]|[_ Hl]]; done.
  - destruct (promises m !! p) as [[rt|]|]; try done.
    destruct (performTokenRefresh_settle now r rt (world m)).
    injection Hstep as <-. done.
  - destruct (callers m !! j) as [[q| | |]|]; try done.
    destruct (promises m !! q) as [[|b]|]; try done.
    injection Hstep as <-. simpl in Hi'.
    apply list_lookup_insert_Some in Hi' as [(_ & ? & _)|[_ Hi']]; done.
  - destruct (callers m !! j) as [[q|q|b|]|]; try done.
    + destruct (promises m !! q) as [[|b]|]; try done.
      injection Hstep as Hm. by eapply Hget.
    + injection Hstep as Hm. by eapply Hget.
Qed.

(** X8: [getValidAccessToken()] never resolves with a token other than
    the one in [localStorage] at that moment: whenever a step of the
    event loop makes a call return a token, that token is the stored
    access token of the resulting world, and the [Authorization] header
    that the request interceptor derives from it is [Bearer] followed by
    the stored token (none if that token is the empty string). *)
Theorem returned_token_is_stored (e : Event) (m m' : Manager) (i : nat) (t : string) :
  step e m = Some m' →
  callers m' !! i = Some (Returned (Some t)) →
  callers m !! i ≠ Some (Returned (Some t)) →
  getAccessToken (world m') = Some t ∧
  Config.authorization (Some t) =
    String.append "Bearer " <$> truthy (getAccessToken (world m')).
Proof.
  intros Hstep Hi' Hi.
  pose proof (returned_is_stored e m m' i t Hstep Hi' Hi) as Hst.
  split; [done|]. rewrite Hst. unfold Config.authorization.
  by destruct (truthy (Some t)).
Qed.



(** X10: [logout()] does not cancel a refresh that is under way.  If the
    endpoint answers successfully afterwards, [setTokens] writes the new
    access token and the refresh token back into the store, while the
    session has no user and the profile stays removed. *)
Theorem refresh_outlives_logout (a : App) (p : nat) (rt : string) (now : Z)
    (data : RefreshBody) :
  promises (manager a) !! p = Some (Pending rt) →
  ∃ a', app_run [Logout; Token (Respond p now (HttpOk (Some data)))] a = Some a' ∧
        user (session a') = None ∧
        getItem "auth_token" (env a') = Some (to_stored (body_access_token data)) ∧
        getItem "refresh_token" (env a') =
          Some (default rt (truthy (body_refresh_token data))) ∧
        getItem "user_data" (env a') = None.
Proof.
  intros Hp. cbn [AuthContext.app_run app_step]. unfold logout, with_env.
  cbn [manager session promises step]. rewrite Hp.
  cbn -[setTokens]. eexists. split; [reflexivity|].
  unfold env. cbn -[setTokens].
  match goal with |- context [setTokens now ?td ?w] =>
    destruct (setTokens_reads now td w) as (Ha & Hr & _ & Hk) end.
  unfold getAccessToken, getRefreshToken in Ha, Hr.
  rewrite Ha, Hr, Hk by done. cbn [access_token refresh_token].
  split; [done|]. split; [done|].
  split; [by destruct (truthy (body_refresh_token data))|].
  unfold getItem. simpl. by simplify_map_eq.
Qed.

End Handout.

(** ** Starting up and reloading *)

Section Startup.
Context `{Platform}.
Variable stringify_user : AuthContext.User → string.
Variable parse_user : string → option (option AuthContext.User).
Import TokenManager Api AuthContext.

Local Abbreviation app_run := (app_run stringify_user parse_user).
Local Abbreviation start := (start parse_user).

Lemma truthy_None_inv (o : option string) :
  truthy o = None → o = None ∨ o = Some EmptyString.
Proof.
  destruct o as [s|]; simpl; [|by left]. case_bool_decide; [|done].
  subst. by right.
Qed.

Lemma stored_both (st : gmap string string) (t u : string) :
  <["auth_token" := t]> (<["user_data" := u]> st) !! "auth_token" = Some t ∧
  <["auth_token" := t]> (<["user_data" := u]> st) !! "user_data" = Some u.
Proof. split; by simplify_map_eq. Qed.

(** X12: the start-up check trusts the store.  If a non-empty
    [user_data] is stored that [JSON.parse] rejects, the provider throws
    while it mounts: there is no session and the start-up check never
    runs.  In every other case the page load followed by [initializeAuth]
    touches neither the store nor the network (the log is still empty),
    ends initialised and not loading, and the session is Authenticated
    exactly when a non-empty [auth_token] and a non-empty [user_data]
    that parses to a user are stored; otherwise it is Unauthenticated,
    and whatever was stored stays. *)
Theorem startup_trusts_the_store (st : gmap string string) :
  (start st = None ↔
     ∃ ud, st !! "user_data" = Some ud ∧ ud ≠ EmptyString ∧ parse_user ud = None) ∧
  (∀ a0, start st = Some a0 →
     let a := initializeAuth a0 in
     app_run [InitializeAuth] a0 = Some a ∧
     env a = mkWorld st [] ∧
     loading (session a) = false ∧
     isInitialized (session a) = true ∧
     (session_state (session a) = Authenticated ↔
        ∃ tok ud u, st !! "auth_token" = Some tok ∧ tok ≠ EmptyString ∧
                    st !! "user_data" = Some ud ∧ ud ≠ EmptyString ∧
                    parse_user ud = Some (Some u) ∧ user (session a) = Some u) ∧
     (session_state (session a) ≠ Authenticated →
      session_state (session a) = Unauthenticated)).
Proof.
  unfold start, AuthContext.start, mount, getItem. cbn [storage].
  destruct (truthy (st !! "user_data")) as [ud|] eqn:Hud.
  - pose proof (truthy_inv _ _ Hud) as [Hud' Hudne].
    destruct (parse_user ud) as [ou|] eqn:Hparse.
    + split.
      { split; [done|]. intros (ud' & Hud2 & _ & Hnone). congruence. }
      intros a0 [= <-]. cbn zeta. split; [done|].
      unfold initializeAuth, session_state, isAuthenticated, env, getItem. simpl.
      split; [done|]. split; [done|]. split; [done|]. rewrite Hud.
      destruct (truthy (st !! "auth_token")) as [tok|] eqn:Htok.
      * pose proof (truthy_inv _ _ Htok) as [Htok' Htokne].
        destruct ou as [u|]; simpl.
        -- split; [|done]. split; [intros _; by exists tok, ud, u|done].
        -- split; [|done]. split; [done|].
           intros (tok' & ud' & u' & _ & _ & Hud2 & _ & Hp2 & _). congruence.
      * simpl. split; [|done]. split; [done|].
        intros (tok & ud' & u & Htok' & Hne & _).
        rewrite Htok' in Htok. by rewrite truthy_Some in Htok.
    + split; [|done]. split; [|done]. intros _. by exists ud.
  - split.
    { split; [done|]. intros (ud & Hud' & Hne & _).
      rewrite Hud' in Hud. by rewrite truthy_Some in Hud. }
    intros a0 [= <-]. cbn zeta. split; [done|].
    unfold initializeAuth, session_state, isAuthenticated, env, getItem. simpl.
    split; [done|]. split; [done|]. split; [done|]. rewrite Hud.
    destruct (truthy (st !! "auth_token")); simpl; (split; [|done]); (split; [done|]);
      intros (tok & ud & u & _ & _ & Hud' & Hne & _);
      rewrite Hud' in Hud; by rewrite truthy_Some in Hud.
Qed.

(** X11: a session survives a page load, and so does a logout.  After a
    successful login or signup whose token is not the empty string, a
    reload followed by the start-up check is Authenticated with the same
    user, provided the profile text is non-empty and parses back to the
    user; after [logout()], a reload followed by the start-up check is
    Unauthenticated. *)
Theorem reload_keeps_the_session (a : App) (token : option string) (ud : UserData) :
  let u := to_user ud in
  to_stored token ≠ EmptyString →
  stringify_user u ≠ EmptyString →
  parse_user (stringify_user u) = Some (Some u) →
  (∃ a', app_run [LoginSettle (Ok token ud); Reload; InitializeAuth] a = Some a' ∧
         session_state (session a') = Authenticated ∧
         user (session a') = Some u ∧
         getItem "auth_token" (env a') = Some (to_stored token)) ∧
  (∃ a', app_run [SignupSettle (Ok token ud); Reload; InitializeAuth] a = Some a' ∧
         session_state (session a') = Authenticated ∧
         user (session a') = Some u) ∧
  (∃ a', app_run [Logout; Reload; InitializeAuth] a = Some a' ∧
         session_state (session a') = Unauthenticated ∧
         user (session a') = None).
Proof.
  intros u Htok Hstr Hparse.
  assert (Hok : ∀ msg_of,
    let a1 := snd (attempt_settle stringify_user msg_of (Ok token ud) a) in
    ∃ a', app_run [Reload; InitializeAuth] a1 = Some a' ∧
          session_state (session a') = Authenticated ∧ user (session a') = Some u ∧
          getItem "auth_token" (env a') = Some (to_stored token)).
  { intros msg_of. cbn zeta. cbn [AuthContext.app_run AuthContext.app_step].
    unfold mount, getItem. simpl. unfold u in *.
    destruct (stored_both (storage (env a)) (to_stored token)
                (stringify_user (to_user ud))) as [H1 H2].
    rewrite H2, truthy_Some by done. rewrite Hparse.
    eexists. split; [reflexivity|].
    unfold initializeAuth, session_state, isAuthenticated, getItem. simpl.
    fold (env a). rewrite H1, H2, !truthy_Some by done. done. }
  split; [|split].
  - apply (Hok login_error_message).
  - destruct (Hok signup_error_message) as (a' & ? & ? & ? & _). by exists a'.
  - cbn [AuthContext.app_run AuthContext.app_step]. unfold mount.
    assert (Hud : getItem "user_data" (env (logout a)) = None).
    { unfold getItem. rewrite logout_storage. by simplify_map_eq. }
    assert (Hat : getItem "auth_token" (env (logout a)) = None).
    { unfold getItem. rewrite logout_storage. by simplify_map_eq. }
    rewrite Hud. cbn [truthy]. eexists. split; [reflexivity|].
    unfold initializeAuth, session_state, isAuthenticated. cbn [session user loading env manager new_manager world isInitialized].
    fold (env (logout a)). by rewrite Hat.
Qed.

(** X13: a login that completes inside the start-up window.  In any
    state in which [initializeAuth] has not run yet (the timer of 100 ms
    after a page load, over whatever store the provider has mounted), a
    [login] that succeeds sets the user and writes the store, yet the
    session is not authenticated, so a protected route would redirect to
    the login page; the start-up check that follows keeps the user and
    makes the session Authenticated. *)
Theorem login_before_startup (a0 : App) (token : option string) (ud : UserData) :
  isInitialized (session a0) = false →
  to_stored token ≠ EmptyString →
  stringify_user (to_user ud) ≠ EmptyString →
  ∃ a1 a2, app_run [LoginBegin; LoginSettle (Ok token ud)] a0 = Some a1 ∧
           user (session a1) = Some (to_user ud) ∧
           getItem "auth_token" (env a1) = Some (to_stored token) ∧
           session_state (session a1) = Unauthenticated ∧
           app_run [InitializeAuth] a1 = Some a2 ∧
           session_state (session a2) = Authenticated ∧
           user (session a2) = Some (to_user ud).
Proof.
  intros Hinit Htok Hstr. eexists. eexists. split; [reflexivity|].
  unfold initializeAuth, session_state, isAuthenticated, getItem. simpl.
  change (env (attempt_begin a0)) with (env a0).
  destruct (stored_both (storage (env a0)) (to_stored token)
              (stringify_user (to_user ud))) as [H1 H2].
  rewrite H1, Hinit. split; [done|]. split; [done|]. split; [done|].
  split; [reflexivity|].
  unfold initializeAuth, session_state, isAuthenticated, getItem. simpl.
  change (env (attempt_begin a0)) with (env a0).
  by rewrite H1, H2, !truthy_Some.
Qed.

End Startup.

(** ** URLs *)

Section Urls.
Import Config.

Lemma strip_snoc (s : string) : strip_trailing_slash (s +:+ "/") = s.
Proof.
  induction s as [|c s IH]; [done|].
  change (String c s +:+ "/") with (String c (s +:+ "/")).
  destruct (s +:+ "/") as [|a s0] eqn:Heq; [by destruct s|].
  change (strip_trailing_slash (String c (String a s0)))
    with (String c (strip_trailing_slash (String a s0))).
  by rewrite IH.
Qed.

Lemma strip_other (s : string) :
  (∀ s', s ≠ s' +:+ "/") → strip_trailing_slash s = s.
Proof.
  induction s as [|c s IH]; [done|]. intros Hs.
  destruct s as [|c' s].
  - simpl. case_bool_decide; [|done]. subst. by destruct (Hs EmptyString).
  - change (strip_trailing_slash (String c (String c' s)))
      with (String c (strip_trailing_slash (String c' s))).
    f_equal. apply IH. intros s' Heq. apply (Hs (String c s')). simpl. by rewrite Heq.
Qed.

Lemma append_cancel (s x y : string) : s +:+ x = s +:+ y → x = y.
Proof. induction s as [|c s IH]; simpl; [done|]. intros [= ?]. auto. Qed.

Lemma truthy_snoc (s : string) : truthy (Some (s +:+ "/")) = Some (s +:+ "/").
Proof. apply truthy_Some. by destruct s. Qed.

(** X14: [API_BASE_URL] removes exactly one trailing slash.  An unset
    or empty variable gives the development fallback; a value that ends
    in a slash loses that one slash (so a value with two keeps one, and
    the value consisting of a slash alone gives the empty base URL); any
    other value is taken as it is. *)
Theorem base_url_strips_one_slash (VITE_API_URL : option string) :
  (truthy VITE_API_URL = None → API_BASE_URL VITE_API_URL = fallback) ∧
  (∀ s, VITE_API_URL = Some (s +:+ "/") → API_BASE_URL VITE_API_URL = s) ∧
  (∀ url, VITE_API_URL = Some url → url ≠ EmptyString →
          (∀ s, url ≠ s +:+ "/") → API_BASE_URL VITE_API_URL = url).
Proof.
  unfold API_BASE_URL. split; [by intros ->|]. split.
  - intros s ->. rewrite truthy_snoc. apply strip_snoc.
  - intros url -> Hne Hs. rewrite truthy_Some by done. by apply strip_other.
Qed.

(** X15: the refresh endpoint is not addressed through [API_BASE_URL].
    [performTokenRefresh] appends its path to the raw variable: the URL
    it fetches is the base URL followed by the path unless the variable
    ends in a slash, in which case it has two slashes where the other
    requests have one. *)
Theorem refresh_url_bypasses_base (VITE_API_URL : option string) :
  ((∀ s, VITE_API_URL ≠ Some (s +:+ "/")) →
   refresh_url VITE_API_URL = API_BASE_URL VITE_API_URL +:+ "/api/auth/refresh") ∧
  (∀ s, VITE_API_URL = Some (s +:+ "/") →
   refresh_url VITE_API_URL = API_BASE_URL VITE_API_URL +:+ "//api/auth/refresh" ∧
   refresh_url VITE_API_URL ≠ API_BASE_URL VITE_API_URL +:+ "/api/auth/refresh").
Proof.
  unfold refresh_url, API_BASE_URL. split.
  - intros Hs. destruct (truthy VITE_API_URL) as [url|] eqn:Hurl; [|done].
    apply truthy_inv in Hurl as [-> Hne]. rewrite strip_other; [done|].
    intros s' ->. by destruct (Hs s').
  - intros s ->. rewrite truthy_snoc, strip_snoc.
    assert (Heq : (s +:+ "/") +:+ "/api/auth/refresh" = s +:+ "//api/auth/refresh").
    { induction s as [|c s IH]; [done|].
      change (String c ((s +:+ "/") +:+ "/api/auth/refresh")
              = String c (s +:+ "//api/auth/refresh")).
      by f_equal. }
    rewrite Heq. split; [done|]. intros Habs. by apply append_cancel in Habs.
Qed.

End Urls.

(** ** Dashboard *)

Section DashboardProofs.
Import Dashboard.

(** X16: [formatTime] on whole seconds.  For a non-negative duration the
    two numbers printed are the minutes and the seconds below 60 that add
    up to it; for a negative duration that is not a whole number of
    minutes they do not: both are negative or zero and add up to one
    minute less. *)
Theorem formatTime_parts (seconds : Z) :
  formatTime seconds =
    pretty (minutes_of seconds) +:+ "m " +:+ pretty (seconds_of seconds) +:+ "s" ∧
  (0 ≤ seconds →
   0 ≤ minutes_of seconds ∧ 0 ≤ seconds_of seconds < 60 ∧
   60 * minutes_of seconds + seconds_of seconds = seconds) ∧
  (seconds < 0 → seconds_of seconds ≠ 0 →
   minutes_of seconds < 0 ∧ -60 < seconds_of seconds < 0 ∧
   60 * minutes_of seconds + seconds_of seconds = seconds - 60).
Proof.
  unfold minutes_of, seconds_of. split; [done|]. split.
  - intros Hs. rewrite Z.rem_mod_nonneg by lia.
    pose proof (Z.mod_pos_bound seconds 60 ltac:(lia)).
    pose proof (Z.div_mod seconds 60 ltac:(lia)).
    pose proof (Z.div_pos seconds 60 Hs ltac:(lia)). lia.
  - intros Hs Hr.
    pose proof (Z.rem_bound_neg_neg seconds 60) as Hb.
    pose proof (Z.quot_rem' seconds 60) as Hq.
    pose proof (Z.rem_bound_abs seconds 60 ltac:(lia)) as Habs.
    assert (Hrem : -60 < Z.rem seconds 60 < 0).
    { pose proof (Z.rem_nonpos seconds 60 ltac:(lia) ltac:(lia)). lia. }
    assert (Hdiv : seconds / 60 = Z.quot seconds 60 - 1).
    { symmetry. apply (Z.div_unique seconds 60 _ (Z.rem seconds 60 + 60)); lia. }
    lia.
Qed.

Lemma realInsights_ids (now : string) (at_ : nat → string)
    (insights : option string) (recommendations : list string) :
  id <$> realInsights now at_ insights recommendations =
    pretty <$> (match truthy insights with Some _ => [1] | None => [] end
                ++ ((λ k : nat, Z.of_nat k + 2) <$> seq 0 (length recommendations))).
Proof.
  unfold realInsights. rewrite !fmap_app. f_equal.
  - by destruct (truthy insights).
  - rewrite fmap_imap. rewrite <- list_fmap_compose.
    rewrite (imap_ext _ (λ k _, pretty (Z.of_nat k + 2))) by done.
    by rewrite imap_seq_0.
Qed.

(** X17: the entries that [loadDashboardData] builds have pairwise
    distinct ids.  The main insight, present only when its text is not
    empty, has id 1; the recommendation at index [k] follows it with id
    [k + 2], whether or not the main insight is there, and keeps its
    text. *)
Theorem realInsights_keys (now : string) (at_ : nat → string)
    (insights : option string) (recommendations : list string) :
  let l := realInsights now at_ insights recommendations in
  let offset := match truthy insights with Some _ => 1%nat | None => 0%nat end in
  NoDup (id <$> l) ∧
  length l = (offset + length recommendations)%nat ∧
  (∀ text, truthy insights = Some text →
           ∃ ins, l !! 0%nat = Some ins ∧ id ins = "1" ∧ feedback ins = text) ∧
  (∀ k rec, recommendations !! k = Some rec →
            ∃ ins, l !! (offset + k)%nat = Some ins ∧
                   id ins = pretty (Z.of_nat k + 2) ∧ feedback ins = rec).
Proof.
  cbn zeta. split; [|split; [|split]].
  - rewrite realInsights_ids. apply NoDup_fmap_2; [apply _|].
    apply NoDup_app. split; [|split].
    + destruct (truthy insights); [apply NoDup_singleton|apply NoDup_nil_2].
    + intros x Hx Hin. apply list_elem_of_fmap in Hin as (k & -> & _).
      destruct (truthy insights); [|by apply elem_of_nil in Hx].
      apply list_elem_of_singleton in Hx. lia.
    + apply NoDup_fmap_2; [|apply NoDup_seq]. intros x y. lia.
  - unfold realInsights. rewrite length_app, length_imap.
    by destruct (truthy insights).
  - intros text Htext. unfold realInsights. rewrite Htext. simpl. eauto.
  - intros k rec Hk. unfold realInsights.
    destruct (truthy insights); rewrite lookup_app_r by (simpl; lia); simpl.
    + rewrite Nat.sub_0_r, list_lookup_imap, Hk. simpl. eauto.
    + rewrite Nat.sub_0_r, list_lookup_imap, Hk. simpl. eauto.
Qed.

End DashboardProofs.

(** ** Camera list *)

Section CameraProofs.
Import CameraSetup.
Context {Fields : Type}.

Lemma find_status_first (statusData : list (Status)) (camera : Camera Fields)
    (k : nat) (s : Status) :
  statusData !! k = Some s →
  camera_id s = id Fields camera →
  (∀ j s', (j < k)%nat → statusData !! j = Some s' → camera_id s' ≠ id Fields camera) →
  find_status Fields statusData camera = Some s.
Proof.
  revert k. induction statusData as [|s0 rest IH]; intros k Hk Hid Hfirst; [done|].
  simpl. destruct k as [|k].
  - injection Hk as ->. by rewrite bool_decide_eq_true_2.
  - rewrite bool_decide_eq_false_2 by (apply (Hfirst 0%nat); [lia|done]).
    apply (IH k); [done|done|]. intros j s' Hj Hs'. apply (Hfirst (S j)); [lia|done].
Qed.

Lemma find_status_none (statusData : list (Status)) (camera : Camera Fields) :
  (∀ s, s ∈ statusData → camera_id s ≠ id Fields camera) →
  find_status Fields statusData camera = None.
Proof.
  induction statusData as [|s0 rest IH]; intros Hall; [done|]. simpl.
  rewrite bool_decide_eq_false_2 by (apply Hall; by left).
  apply IH. intros s Hs. apply Hall. by right.
Qed.

(** X18: the camera list that [loadCameras] shows.  A response that is
    not an array gives the empty list.  Otherwise the cameras keep their
    number, order, ids and copied fields; when the status response is
    usable every camera gets both detection fields defined, taken from
    the first status entry with its id (an absent flag counting as false,
    an absent feature list as empty), or false and empty if no entry has
    its id; when it is not usable the cameras are shown as received. *)
Theorem loaded_cameras (cameras : list (Camera Fields)) (statuses : option (list Status)) :
  loaded Fields None statuses = [] ∧
  loaded Fields (Some cameras) None = cameras ∧
  id Fields <$> loaded Fields (Some cameras) statuses = id Fields <$> cameras ∧
  fields Fields <$> loaded Fields (Some cameras) statuses = fields Fields <$> cameras ∧
  ∀ statusData i camera,
    statuses = Some statusData → cameras !! i = Some camera →
    ∃ shown, loaded Fields (Some cameras) statuses !! i = Some shown ∧
      is_Some (detection_active Fields shown) ∧
      is_Some (enabled_features Fields shown) ∧
      (∀ k s, statusData !! k = Some s → camera_id s = id Fields camera →
         (∀ j s', (j < k)%nat → statusData !! j = Some s' →
                  camera_id s' ≠ id Fields camera) →
         detection_active Fields shown = Some (default false (status_active s)) ∧
         enabled_features Fields shown = Some (default [] (status_features s))) ∧
      ((∀ s, s ∈ statusData → camera_id s ≠ id Fields camera) →
       detection_active Fields shown = Some false ∧
       enabled_features Fields shown = Some []).
Proof.
  unfold loaded. split; [by destruct statuses|]. split; [done|]. simpl.
  split; [destruct statuses; [|done]; by rewrite <- list_fmap_compose|].
  split; [destruct statuses; [|done]; by rewrite <- list_fmap_compose|].
  intros statusData i camera -> Hi. rewrite list_lookup_fmap, Hi. simpl.
  eexists. split; [reflexivity|]. unfold enrich. simpl.
  split; [eauto|]. split; [eauto|]. split.
  - intros k s Hk Hid Hfirst.
    rewrite (find_status_first statusData camera k s) by done. simpl.
    split; f_equal.
  - intros Hnone. by rewrite find_status_none.
Qed.

End CameraProofs.

(** * Further worked instances *)

Section MoreInstances.
Import TokenManager Api AuthContext.

(** X1 at the token that expires at second 1000, read at seconds 800 and
    900 without argument. *)
Lemma expiry_monotone_witness :
  @isTokenExpired Browser.platform 900000 Demo.expired_world None = true.
Proof.
  apply (@expiry_monotone Browser.platform 800000 900000 Demo.expired_world None).
  - lia.
  - vm_compute. reflexivity.
Defined.

(** X2 at two stores that differ in the computed expiry only. *)
Lemma expiry_reads_only_the_token_witness :
  @isTokenExpired Browser.platform 800000 Demo.fresh_world None =
  @isTokenExpired Browser.platform 800000
    (setItem "token_expires_at" "1" Demo.fresh_world) None.
Proof.
  exact (proj1 (@expiry_reads_only_the_token Browser.platform 800000 Demo.fresh_world
                  (setItem "token_expires_at" "1" Demo.fresh_world) None eq_refl)).
Defined.

(** X5 at the three concurrent callers. *)
Lemma at_most_one_in_flight_witness :
  count is_fetch (effects (world Demo.after_three_calls)) =
    (0 + length (promises Demo.after_three_calls))%nat.
Proof.
  destruct (@at_most_one_in_flight Browser.platform Demo.expired_world
    ((Call <$> [800000; 800001; 800002])
     ++ Respond 0 800500 Demo.renewal :: Demo.three_resumes)
    Demo.after_three_calls) as (_ & _ & Hcount).
  - vm_compute. reflexivity.
  - exact Hcount.
Defined.

(** X6 at one caller waiting for the answer. *)
Lemma no_call_is_stuck_witness :
  (∃ rt, promises Demo.waiting !! 0%nat = Some (Pending rt)) ∨
  (∃ i, callers Demo.waiting !! i = Some (InRefresh 0) ∧
        is_Some (@step Browser.platform (ResumeRefresh i) Demo.waiting)).
Proof.
  destruct (@no_call_is_stuck Browser.platform Demo.expired_world [Call 800000]
              Demo.waiting) as [_ Hslot].
  - vm_compute. reflexivity.
  - exact (Hslot 0%nat eq_refl).
Defined.


(** X8 at a call that finds a token valid until second 5000. *)
Lemma returned_token_is_stored_witness :
  getAccessToken
    (world (@getValidAccessToken_start Browser.platform 800000
              (new_manager Demo.fresh_world))) = Some Demo.jwt_5000 ∧
  Config.authorization (Some Demo.jwt_5000) =
    String.append "Bearer " <$>
      truthy (getAccessToken
        (world (@getValidAccessToken_start Browser.platform 800000
                  (new_manager Demo.fresh_world)))).
Proof.
  apply (@returned_token_is_stored Browser.platform (Call 800000)
           (new_manager Demo.fresh_world) _ 0 Demo.jwt_5000).
  - reflexivity.
  - vm_compute. reflexivity.
  - vm_compute. discriminate.
Defined.

(** X10 at a logout while one refresh is under way. *)
Lemma refresh_outlives_logout_witness :
  ∃ a', @app_run Demo.stringify_user Demo.parse_user Browser.platform
          [Logout; Token (Respond 0 800500
             (HttpOk (Some (mkRefreshBody (Some Demo.jwt_5000) None None))))]
          (mkApp (session Demo.logged_in) Demo.waiting) = Some a' ∧
        user (session a') = None ∧
        getItem "auth_token" (env a') = Some Demo.jwt_5000 ∧
        getItem "refresh_token" (env a') = Some "r1" ∧
        getItem "user_data" (env a') = None.
Proof.
  exact (@refresh_outlives_logout Browser.platform Demo.stringify_user Demo.parse_user
           (mkApp (session Demo.logged_in) Demo.waiting) 0 "r1" 800500
           (mkRefreshBody (Some Demo.jwt_5000) None None) eq_refl).
Defined.

(** X11 at the login of user 1 of store S. *)
Lemma reload_keeps_the_session_witness :
  ∃ a', @app_run Demo.stringify_user Demo.parse_user Browser.platform
          [LoginSettle Demo.login_ok; Reload; InitializeAuth] Demo.visitor = Some a' ∧
        session_state (session a') = Authenticated ∧
        user (session a') = Some (mkUser "1" "A" "a@b.com" "S" "1") ∧
        getItem "auth_token" (env a') = Some "t1".
Proof.
  destruct (@reload_keeps_the_session Browser.platform Demo.stringify_user
              Demo.parse_user Demo.visitor (Some "t1")
              (mkUserData 1 "A" "a@b.com" "S" None)) as [Hlogin _].
  - discriminate.
  - vm_compute. discriminate.
  - vm_compute. reflexivity.
  - exact Hlogin.
Defined.

(** X12 at a store whose profile is not JSON, and at a store that holds
    a token and a profile. *)
Lemma startup_trusts_the_store_witness :
  start Demo.parse_user {[ "user_data" := "{" ]} = None ∧
  start Demo.parse_user Demo.stale_store = Some (Demo.app_from Demo.stale_store []) ∧
  session_state (session (initializeAuth (Demo.app_from Demo.stale_store [])))
    = Authenticated.
Proof.
  split; [|split].
  - apply (proj1 (@startup_trusts_the_store Browser.platform Demo.stringify_user
                    Demo.parse_user {[ "user_data" := "{" ]})).
    exists "{". split; [vm_compute; reflexivity|].
    split; [discriminate|vm_compute; reflexivity].
  - vm_compute. reflexivity.
  - destruct (proj2 (@startup_trusts_the_store Browser.platform Demo.stringify_user
                       Demo.parse_user Demo.stale_store)
                (Demo.app_from Demo.stale_store []))
      as (_ & _ & _ & _ & Hiff & _).
    + vm_compute. reflexivity.
    + apply Hiff. exists Demo.jwt_1000, "{}", (mkUser "" "" "" "" "").
      repeat split; try discriminate; vm_compute; reflexivity.
Defined.

(** X13 at the same login, made right after a first page load, before
    the start-up check. *)
Lemma login_before_startup_witness :
  start Demo.parse_user ∅ = Some (Demo.app_from ∅ []) ∧
  ∃ a1 a2, @app_run Demo.stringify_user Demo.parse_user Browser.platform
             [LoginBegin; LoginSettle Demo.login_ok] (Demo.app_from ∅ []) = Some a1 ∧
           user (session a1) = Some (mkUser "1" "A" "a@b.com" "S" "1") ∧
           getItem "auth_token" (env a1) = Some "t1" ∧
           session_state (session a1) = Unauthenticated ∧
           @app_run Demo.stringify_user Demo.parse_user Browser.platform
             [InitializeAuth] a1 = Some a2 ∧
           session_state (session a2) = Authenticated ∧
           user (session a2) = Some (mkUser "1" "A" "a@b.com" "S" "1").
Proof.
  split; [vm_compute; reflexivity|].
  apply (@login_before_startup Browser.platform Demo.stringify_user Demo.parse_user
           (Demo.app_from ∅ []) (Some "t1") (mkUserData 1 "A" "a@b.com" "S" None)).
  - reflexivity.
  - discriminate.
  - vm_compute. discriminate.
Defined.

(** X14 at a value with two trailing slashes. *)
Lemma base_url_strips_one_slash_witness :
  Config.API_BASE_URL (Some "https://api.example.com//") = "https://api.example.com/".
Proof.
  exact (proj1 (proj2 (base_url_strips_one_slash (Some "https://api.example.com//")))
           "https://api.example.com/" eq_refl).
Defined.

(** X15 at a value that ends in a slash. *)
Lemma refresh_url_bypasses_base_witness :
  Config.refresh_url (Some "https://api.example.com/") =
    Config.API_BASE_URL (Some "https://api.example.com/") +:+ "//api/auth/refresh" ∧
  Config.refresh_url (Some "https://api.example.com/") ≠
    Config.API_BASE_URL (Some "https://api.example.com/") +:+ "/api/auth/refresh".
Proof.
  exact (proj2 (refresh_url_bypasses_base (Some "https://api.example.com/"))
           "https://api.example.com" eq_refl).
Defined.

(** X16 at 125 seconds, shown as 2m 5s. *)
Lemma formatTime_parts_witness :
  Dashboard.formatTime 125 = "2m 5s" ∧
  0 ≤ Dashboard.minutes_of 125 ∧ 0 ≤ Dashboard.seconds_of 125 < 60 ∧
  60 * Dashboard.minutes_of 125 + Dashboard.seconds_of 125 = 125.
Proof.
  split; [reflexivity|].
  apply (proj1 (proj2 (formatTime_parts 125))). lia.
Defined.

(** X18 at two cameras, the status response knowing the second one
    twice. *)
Lemma loaded_cameras_witness :
  CameraSetup.detection_active string
    <$> CameraSetup.loaded string
          (Some [CameraSetup.mkCamera string 1 "door" None None;
                 CameraSetup.mkCamera string 2 "till" None None])
          (Some [CameraSetup.mkStatus 2 (Some true) None;
                 CameraSetup.mkStatus 2 (Some false) (Some ["queue"])])
  = [Some false; Some true] ∧
  CameraSetup.id string
    <$> CameraSetup.loaded string
          (Some [CameraSetup.mkCamera string 1 "door" None None;
                 CameraSetup.mkCamera string 2 "till" None None])
          (Some [CameraSetup.mkStatus 2 (Some true) None;
                 CameraSetup.mkStatus 2 (Some false) (Some ["queue"])])
  = [1; 2].
Proof.
  split; [reflexivity|].
  exact (proj1 (proj2 (proj2 (@loaded_cameras string
    [CameraSetup.mkCamera string 1 "door" None None;
     CameraSetup.mkCamera string 2 "till" None None]
    (Some [CameraSetup.mkStatus 2 (Some true) None;
           CameraSetup.mkStatus 2 (Some false) (Some ["queue"])]))))).
Defined.

End MoreInstances.
